(** * Key register of package jwt: [Check], [LoadPEM] and [add]

    A shallow embedding of [register.go].  The Go standard library
    ([encoding/pem], [crypto/x509], [crypto/hmac], [crypto/rsa],
    [crypto/ecdsa]) and the functions of package jwt that live in other files
    ([parseHeader], [header.match], the algorithm tables) are not part of the
    file; they are taken as parameters, grouped in two classes, so every
    theorem holds for whatever those functions compute. *)

From Stdlib Require Import String Ascii List ZArith Lia Bool Arith.
Import ListNotations.
Local Open Scope string_scope.
Local Open Scope list_scope.

(** ** Data *)

(** A Go [[]byte]. *)
Definition bytes := list Byte.byte.

(** [crypto.Hash] is an unsigned integer naming a hash function. *)
Definition Hash := N.

(** [big.NewInt(0).SetBytes(b)]: [b] read as a big-endian unsigned integer. *)
Definition SetBytes (b : bytes) : Z :=
  fold_left (fun acc x => acc * 256 + Z.of_N (Byte.to_N x))%Z b 0%Z.

Module ecdsa.
(** [ecdsa.PublicKey]: a curve (by name) and a point on it. *)
Record PublicKey := { Curve : string; X : Z; Y : Z }.
(** [ecdsa.PrivateKey] embeds the public key and adds the secret scalar. *)
Record PrivateKey := { Public : PublicKey; D : Z }.
End ecdsa.

Module rsa.
(** [rsa.PublicKey]: modulus and public exponent. *)
Record PublicKey := { N : Z; E : Z }.
(** [rsa.PrivateKey] embeds the public key and adds the private exponent and
    the prime factors. *)
Record PrivateKey := { Public : PublicKey; D : Z; Primes : list Z }.
End rsa.

(** The dynamic type of an [interface{}] holding a parsed public key, as the
    type switch of [add] sees it: the two supported pointer types, or any
    other type, kept by its [%T] name. *)
Inductive AnyKey :=
| KeyECDSA (t : ecdsa.PublicKey)
| KeyRSA (t : rsa.PublicKey)
| KeyOther (typeName : string).

Module pem.
(** [pem.Block]. *)
Record Block := { Type' : string; Headers : list (string * string); Bytes : bytes }.
End pem.

Module x509.
(** The one field of [x509.Certificate] that [LoadPEM] reads. *)
Record Certificate := { PublicKey : AnyKey }.
End x509.

(** KeyRegister contains recognized credentials. *)
Record KeyRegister := {
  ECDSAs : list ecdsa.PublicKey;  (* ECDSA credentials *)
  RSAs : list rsa.PublicKey;      (* RSA credentials *)
  Secrets : list bytes            (* HMAC credentials *)
}.

(** The zero value of [KeyRegister]. *)
Definition emptyRegister : KeyRegister :=
  {| ECDSAs := []; RSAs := []; Secrets := [] |}.

(** Number of credentials a register holds, over its three sets. *)
Definition credentials (r : KeyRegister) : nat :=
  length (ECDSAs r) + length (RSAs r) + length (Secrets r).

(** Go [error] values that reach the caller of [Check] and [LoadPEM].  The
    package's own sentinels are constructors ([ErrAlgUnk] and [ErrSigMiss]
    are declared in another file of the package; [Check] names them); an
    error made by [fmt.Errorf] carries its argument; an error made by the
    standard library is kept by the call it came from, with its text.
    [errOther] stands for the errors of the package's other files. *)
Inductive error :=
| ErrAlgUnk
| ErrSigMiss
| errUnencryptedPEM
| errUnknownPEMType (type : string)
| errUnsupportedKeyType (typeName : string)
| errDecrypt (text : string)
| errParse (text : string)
| errOther (text : string).

Definition error_eq_dec (a b : error) : {a = b} + {a <> b}.
Proof. decide equality; apply string_dec. Defined.

(** ** The Go standard library, as far as [register.go] calls it *)

Class GoLib := {
  (** [pem.Decode]: the next block and the rest of the input, or no block. *)
  pem_Decode : bytes -> option (pem.Block * bytes);
  (** [pem.Decode] consumes input when it finds a block. *)
  pem_Decode_rest : forall data block rest,
    pem_Decode data = Some (block, rest) -> length rest < length data;
  x509_IsEncryptedPEMBlock : pem.Block -> bool;
  x509_DecryptPEMBlock : pem.Block -> bytes -> string + bytes;
  x509_ParseCertificates : bytes -> string + list x509.Certificate;
  x509_ParsePKIXPublicKey : bytes -> string + AnyKey;
  x509_ParseECPrivateKey : bytes -> string + ecdsa.PrivateKey;
  x509_ParsePKCS1PrivateKey : bytes -> string + rsa.PrivateKey;
  (** [hmac.New(hash.New, secret)], [Write(content)], [Sum]. *)
  hmac_Sum : Hash -> bytes -> bytes -> bytes;
  hmac_Equal : bytes -> bytes -> bool;
  (** [hash.New()], [Write(content)], [Sum]. *)
  hash_Sum : Hash -> bytes -> bytes;
  (** [rsa.VerifyPKCS1v15]: [None] is a nil error. *)
  rsa_VerifyPKCS1v15 : rsa.PublicKey -> Hash -> bytes -> bytes -> option string;
  ecdsa_Verify : ecdsa.PublicKey -> bytes -> Z -> Z -> bool
}.

(** ** LoadPEM *)

Section Load.
Context {lib : GoLib}.

(** [add]: the type switch over a parsed key. *)
Definition add (r : KeyRegister) (key : AnyKey) : KeyRegister * option error :=
  match key with
  | KeyECDSA t =>
      ({| ECDSAs := ECDSAs r ++ [t]; RSAs := RSAs r; Secrets := Secrets r |}, None)
  | KeyRSA t =>
      ({| ECDSAs := ECDSAs r; RSAs := RSAs r ++ [t]; Secrets := Secrets r |}, None)
  | KeyOther typeName => (r, Some (errUnsupportedKeyType typeName))
  end.

(** [for _, c := range certs { if err := r.add(c.PublicKey); err != nil
    { return n, err } }]. *)
Fixpoint addCertificates (r : KeyRegister) (certs : list x509.Certificate)
  : KeyRegister * option error :=
  match certs with
  | [] => (r, None)
  | c :: certs' =>
      match add r (x509.PublicKey c) with
      | (r', Some err) => (r', Some err)
      | (r', None) => addCertificates r' certs'
      end
  end.

(** The password step of the loop body: the block to go on with, or the
    error the call returns. *)
Definition openBlock (block : pem.Block) (password : bytes) : error + pem.Block :=
  if x509_IsEncryptedPEMBlock block then
    match x509_DecryptPEMBlock block password with
    | inl text => inl (errDecrypt text)
    | inr der =>
        inr {| pem.Type' := pem.Type' block; pem.Headers := pem.Headers block;
               pem.Bytes := der |}
    end
  else if negb (Nat.eqb (length password) 0) then inl errUnencryptedPEM
  else inr block.

(** [switch block.Type { ... }]. *)
Definition switchType (r : KeyRegister) (block : pem.Block)
  : KeyRegister * option error :=
  if String.eqb (pem.Type' block) "CERTIFICATE" then
    match x509_ParseCertificates (pem.Bytes block) with
    | inl text => (r, Some (errParse text))
    | inr certs => addCertificates r certs
    end
  else if String.eqb (pem.Type' block) "PUBLIC KEY" then
    match x509_ParsePKIXPublicKey (pem.Bytes block) with
    | inl text => (r, Some (errParse text))
    | inr key => add r key
    end
  else if String.eqb (pem.Type' block) "EC PRIVATE KEY" then
    match x509_ParseECPrivateKey (pem.Bytes block) with
    | inl text => (r, Some (errParse text))
    | inr key =>
        ({| ECDSAs := ECDSAs r ++ [ecdsa.Public key]; RSAs := RSAs r;
            Secrets := Secrets r |}, None)
    end
  else if String.eqb (pem.Type' block) "RSA PRIVATE KEY" then
    match x509_ParsePKCS1PrivateKey (pem.Bytes block) with
    | inl text => (r, Some (errParse text))
    | inr key =>
        ({| ECDSAs := ECDSAs r; RSAs := RSAs r ++ [rsa.Public key];
            Secrets := Secrets r |}, None)
    end
  else (r, Some (errUnknownPEMType (pem.Type' block))).

(** The body of the loop of [LoadPEM] from the password check to the end of
    the switch: the register afterwards, and the error that ends the call
    (if any). *)
Definition loadBlock (r : KeyRegister) (block : pem.Block) (password : bytes)
  : KeyRegister * option error :=
  match openBlock block password with
  | inl err => (r, Some err)
  | inr block' => switchType r block'
  end.

(** The [for] loop of [LoadPEM], with the register and the named result [n]
    as they stand at the top of an iteration.  [fuel] bounds the iterations;
    [None] means it ran out. *)
Fixpoint loadLoop (fuel : nat) (r : KeyRegister) (n : nat) (data password : bytes)
  : option (KeyRegister * nat * option error) :=
  match fuel with
  | O => None
  | S fuel' =>
      match pem_Decode data with
      | None => Some (r, n, None)
      | Some (block, remainder) =>
          match loadBlock r block password with
          | (r', Some err) => Some (r', n, Some err)
          | (r', None) => loadLoop fuel' r' (S n) remainder password
          end
      end
  end.

(** LoadPEM adds keys from PEM-encoded data and returns the count.  The
    result is the register after the call, [n] and [err].  Each iteration
    shortens [data], so one more iteration than [data] has bytes is enough
    (see [LoadPEM_always_returns]). *)
Definition LoadPEM (r : KeyRegister) (data password : bytes)
  : option (KeyRegister * nat * option error) :=
  loadLoop (S (length data)) r 0 data password.

(** [data] decodes block by block into [blocks], leaving [rest]. *)
Inductive decodes : bytes -> list pem.Block -> bytes -> Prop :=
| decodes_nil data : decodes data [] data
| decodes_cons data block remainder blocks rest :
    pem_Decode data = Some (block, remainder) ->
    decodes remainder blocks rest ->
    decodes data (block :: blocks) rest.

(** The loop run over blocks already decoded. *)
Fixpoint loadBlocks (r : KeyRegister) (n : nat) (blocks : list pem.Block)
  (password : bytes) : KeyRegister * nat * option error :=
  match blocks with
  | [] => (r, n, None)
  | block :: blocks' =>
      match loadBlock r block password with
      | (r', Some err) => (r', n, Some err)
      | (r', None) => loadBlocks r' (S n) blocks' password
      end
  end.

(** Credentials a block adds when loaded into an empty register. *)
Definition contributes (block : pem.Block) (password : bytes) : nat :=
  credentials (fst (loadBlock emptyRegister block password)).



End Load.

(** [r] followed by the credentials of [r0], set by set. *)
Definition join (r r0 : KeyRegister) : KeyRegister :=
  {| ECDSAs := ECDSAs r ++ ECDSAs r0; RSAs := RSAs r ++ RSAs r0;
     Secrets := Secrets r ++ Secrets r0 |}.

(** [r'] is [r] with public keys appended: nothing removed or reordered, and
    the secrets as they were. *)
Definition extends (r r' : KeyRegister) : Prop :=
  exists ecdsas rsas,
    ECDSAs r' = ECDSAs r ++ ecdsas /\ RSAs r' = RSAs r ++ rsas /\
    Secrets r' = Secrets r.

(** ** The rest of package jwt *)

(** The three algorithm families of the package's tables. *)
Inductive Family := HMAC | RSA | ECDSA.

(** Modelled from the spec: the type [header] is declared in another file
    of the package.  A decoded header holds at least an algorithm identifier
    and an optional key identifier hint (section 3); [Check] reads
    [header.Kid] and hands the header to [header.match]. *)
Record header := { Alg : string; Kid : string }.

(** Modelled from the spec: the type [Claims] is declared in another file
    of the package.  A claims result is the decoded claim set plus the key
    identifier taken from the header (section 3); [KeyID] is the field
    [Check] assigns. *)
Record Claims := { Raw : bytes; KeyID : string }.

(** A [map[string]crypto.Hash]. *)
Definition AlgTable := list (string * Hash).

(** What [Check] uses from the other files of the package, as parameters. *)
Class Package := {
  HMACAlgs : AlgTable;
  RSAAlgs : AlgTable;
  ECDSAAlgs : AlgTable;
  (** [parseHeader(token)]: the header and a work buffer, or an error. *)
  parseHeader : bytes -> error + (header * bytes);
  (** [header.match(algs)]: the hash of the header's algorithm in [algs], or
      an error; [ErrAlgUnk] is the error [Check] reads as a miss. *)
  header_match : header -> AlgTable -> error + Hash;
  (** Signature segment of a token: the signed content and the decoded
      signature, or an error. *)
  decodeSignature : bytes -> bytes -> error + (bytes * bytes);
  (** Payload segment of a token decoded into claims, or an error. *)
  parseClaims : bytes -> bytes -> error + Claims
}.

(** ** Check *)

(** A call [Check] makes into the header matcher or into a signature
    primitive, with its arguments. *)
Inductive call :=
| call_match (family : Family)
| call_hmac_Equal (secret sig mac : bytes)
| call_rsa_VerifyPKCS1v15 (key : rsa.PublicKey) (hash : Hash) (digestSum sig : bytes)
| call_ecdsa_Verify (key : ecdsa.PublicKey) (digestSum : bytes) (r s : Z).

(** The family whose verifier makes a call; [None] for a table lookup. *)
Definition verifierOf (c : call) : option Family :=
  match c with
  | call_match _ => None
  | call_hmac_Equal _ _ _ => Some HMAC
  | call_rsa_VerifyPKCS1v15 _ _ _ _ => Some RSA
  | call_ecdsa_Verify _ _ _ _ => Some ECDSA
  end.

(** What a run of [Check] can touch: the register behind [reg], and the
    calls made so far, oldest first. *)
Record World := { register : KeyRegister; calls : list call }.

(** Computations over a [World]. *)
Definition M (A : Type) := World -> A * World.

Definition ret {A} (a : A) : M A := fun w => (a, w).

Definition bind {A B} (m : M A) (k : A -> M B) : M B :=
  fun w => let (a, w') := m w in k a w'.

Notation "x <- m ;; k" := (bind m (fun x => k))
  (at level 61, m at next level, right associativity).
Notation "m ;; k" := (bind m (fun _ => k))
  (at level 61, right associativity).

(** Read a field of [reg]. *)
Definition reg {A} (field : KeyRegister -> A) : M A :=
  fun w => (field (register w), w).

(** Log a call. *)
Definition called (c : call) : M unit :=
  fun w => (tt, {| register := register w; calls := calls w ++ [c] |}).

(** A fresh run on register [r]. *)
Definition start (r : KeyRegister) : World := {| register := r; calls := [] |}.

(** The candidates a loop of the shape
    [for _, key := range keys { if ok(key) { return nil } }] gets to. *)
Fixpoint attempted {K} (ok : K -> bool) (keys : list K) : list K :=
  match keys with
  | [] => []
  | key :: keys' => key :: (if ok key then [] else attempted ok keys')
  end.

(** A run over [keys] with test [ok], result [res] and calls [cs] stops at
    the first candidate that passes, or fails with [ErrSigMiss] after all. *)
Definition stopsAtFirst {K} (ok : K -> bool) (ev : K -> call) (keys : list K)
  (res : option error) (cs : list call) : Prop :=
  (exists before key after,
      keys = before ++ key :: after /\
      (forall k, In k before -> ok k = false) /\ ok key = true /\
      res = None /\ cs = map ev (before ++ [key]))
  \/ ((forall k, In k keys -> ok k = false) /\
      res = Some ErrSigMiss /\ cs = map ev keys).

(** A closure that only reads the register and calls into [family]. *)
Definition verifierFor (family : Family)
  (verifySig : bytes -> bytes -> Hash -> M (option error)) : Prop :=
  forall content sig hash w,
  exists cs,
    snd (verifySig content sig hash w) =
    {| register := register w; calls := calls w ++ cs |} /\
    Forall (fun c => verifierOf c = Some family) cs /\
    forall w', register w' = register w ->
               fst (verifySig content sig hash w') = fst (verifySig content sig hash w).

Section Verify.
Context {lib : GoLib} {pkg : Package}.

(** The table of a family. *)
Definition algsOf (family : Family) : AlgTable :=
  match family with
  | HMAC => HMACAlgs
  | RSA => RSAAlgs
  | ECDSA => ECDSAAlgs
  end.

(** [header.match(algs)] for the table of [family]. *)
Definition matchFamily (h : header) (family : Family) : M (error + Hash) :=
  called (call_match family) ;; ret (header_match h (algsOf family)).

(** The loop over the candidates, shared by the three closures:
    [for _, key := range keys { if ok(key) { return nil } }; return ErrSigMiss]. *)
Fixpoint rangeKeys {K} (ok : K -> bool) (ev : K -> call) (keys : list K)
  : M (option error) :=
  match keys with
  | [] => ret (Some ErrSigMiss)
  | key :: keys' =>
      called (ev key) ;;
      if ok key then ret None else rangeKeys ok ev keys'
  end.

(** The closure of the HMAC branch. *)
Definition verifyHMAC (content sig : bytes) (hash : Hash) : M (option error) :=
  secrets <- reg Secrets ;;
  rangeKeys (fun secret => hmac_Equal sig (hmac_Sum hash secret content))
            (fun secret => call_hmac_Equal secret sig (hmac_Sum hash secret content))
            secrets.

(** The closure of the RSA branch. *)
Definition verifyRSA (content sig : bytes) (hash : Hash) : M (option error) :=
  let digestSum := hash_Sum hash content in
  keys <- reg RSAs ;;
  rangeKeys (fun key => match rsa_VerifyPKCS1v15 key hash digestSum sig with
                        | None => true
                        | Some _ => false
                        end)
            (fun key => call_rsa_VerifyPKCS1v15 key hash digestSum sig)
            keys.

(** The closure of the ECDSA branch. *)
Definition verifyECDSA (content sig : bytes) (hash : Hash) : M (option error) :=
  let r := SetBytes (firstn (length sig / 2) sig) in
  let s := SetBytes (skipn (length sig / 2) sig) in
  let digestSum := hash_Sum hash content in
  keys <- reg ECDSAs ;;
  rangeKeys (fun key => ecdsa_Verify key digestSum r s)
            (fun key => call_ecdsa_Verify key digestSum r s)
            keys.

(** Modelled from the spec: [verifyAndParseClaims] is defined in another file
    of the package.  It decodes the signature segment, hands the signed
    content and the signature to [verifySig], and decodes the payload into
    claims only when [verifySig] returned no error (sections 4.3 and 4.4,
    steps 1 and 6). *)
Definition verifyAndParseClaims (token buf : bytes) (hash : Hash)
  (verifySig : bytes -> bytes -> Hash -> M (option error)) : M (error + Claims) :=
  match decodeSignature token buf with
  | inl err => ret (inl err)
  | inr (content, sig) =>
      res <- verifySig content sig hash ;;
      match res with
      | Some err => ret (inl err)
      | None => ret (parseClaims token buf)
      end
  end.

(** The tail of [Check] after [verifySig] is chosen. *)
Definition checkWith (token buf : bytes) (h : header) (hash : Hash)
  (verifySig : bytes -> bytes -> Hash -> M (option error)) : M (error + Claims) :=
  res <- verifyAndParseClaims token buf hash verifySig ;;
  match res with
  | inl err => ret (inl err)
  | inr claims => ret (inr {| Raw := Raw claims; KeyID := Kid h |})
  end.

(** Check parses a JWT and returns the claims set if, and only if, the
    signature checks out. *)
Definition Check (token : bytes) : M (error + Claims) :=
  match parseHeader token with
  | inl err => ret (inl err)
  | inr (h, buf) =>
      m <- matchFamily h HMAC ;;
      match m with
      | inr hash => checkWith token buf h hash verifyHMAC
      | inl err =>
          if error_eq_dec err ErrAlgUnk then
            m <- matchFamily h RSA ;;
            match m with
            | inr hash => checkWith token buf h hash verifyRSA
            | inl err =>
                if error_eq_dec err ErrAlgUnk then
                  m <- matchFamily h ECDSA ;;
                  match m with
                  | inr hash => checkWith token buf h hash verifyECDSA
                  | inl err => ret (inl err)
                  end
                else ret (inl err)
            end
          else ret (inl err)
      end
  end.

End Verify.

(** ** A scripted library, to run the model on concrete inputs

    A stand-in for the Go libraries in the manner of a test double: every
    block is one byte long, and the byte says which block it is.  It is used
    only to evaluate [LoadPEM] and [Check] on concrete inputs; no general
    theorem depends on it. *)

Module Stub.

Definition bytes_eqb (a b : bytes) : bool :=
  if list_eq_dec Byte.byte_eq_dec a b then true else false.

Definition rsaA : rsa.PublicKey := {| rsa.N := 3233; rsa.E := 17 |}.
Definition rsaB : rsa.PublicKey := {| rsa.N := 2773; rsa.E := 17 |}.
Definition ecA : ecdsa.PublicKey :=
  {| ecdsa.Curve := "P-256"; ecdsa.X := 5; ecdsa.Y := 1 |}.

Definition plain (type : string) (body : Byte.byte) : pem.Block :=
  {| pem.Type' := type; pem.Headers := []; pem.Bytes := [body] |}.

Definition sealed (type : string) (body : Byte.byte) : pem.Block :=
  {| pem.Type' := type; pem.Headers := [("DEK-Info", "AES-128-CBC,00")];
     pem.Bytes := [body] |}.

(** The block a byte stands for. *)
Definition blockOf (x : Byte.byte) : option pem.Block :=
  match Byte.to_N x with
  | 1%N => Some (plain "CERTIFICATE" x)       (* one certificate, key [rsaA] *)
  | 2%N => Some (plain "CERTIFICATE" x)       (* two certificates, [rsaA], [rsaB] *)
  | 3%N => Some (plain "PUBLIC KEY" x)        (* [ecA] *)
  | 4%N => Some (plain "EC PRIVATE KEY" x)    (* private key of [ecA] *)
  | 5%N => Some (plain "RSA PRIVATE KEY" x)   (* private key of [rsaB] *)
  | 6%N => Some (plain "DSA PRIVATE KEY" x)   (* a type [LoadPEM] does not know *)
  | 7%N => Some (sealed "EC PRIVATE KEY" x)   (* block 4, encrypted *)
  | 8%N => Some (plain "CERTIFICATE" x)       (* certificates [rsaA], then a DSA key *)
  | _ => None
  end.

Definition Decode (data : bytes) : option (pem.Block * bytes) :=
  match data with
  | [] => None
  | x :: rest =>
      match blockOf x with
      | Some block => Some (block, rest)
      | None => None
      end
  end.

Definition Decode_rest data block rest :
  Decode data = Some (block, rest) -> length rest < length data.
Proof.
  destruct data as [|x data']; simpl; [discriminate|].
  destruct (blockOf x); [|discriminate].
  intros H; injection H as _ <-. lia.
Qed.

(** The password of the encrypted block. *)
Definition password : bytes := [Byte.x70; Byte.x77].

Definition DecryptPEMBlock (block : pem.Block) (pass : bytes) : string + bytes :=
  if bytes_eqb pass password then
    match pem.Bytes block with
    | [x] => if N.eqb (Byte.to_N x) 7 then inr [Byte.x04] else inl "x509: no DEK-Info header in block"
    | _ => inl "x509: no DEK-Info header in block"
    end
  else inl "x509: decryption password incorrect".

Definition bodyOf (der : bytes) : N :=
  match der with
  | [x] => Byte.to_N x
  | _ => 0%N
  end.

Definition cert (key : AnyKey) : x509.Certificate := {| x509.PublicKey := key |}.

Definition ParseCertificates (der : bytes) : string + list x509.Certificate :=
  match bodyOf der with
  | 1%N => inr [cert (KeyRSA rsaA)]
  | 2%N => inr [cert (KeyRSA rsaA); cert (KeyRSA rsaB)]
  | 8%N => inr [cert (KeyRSA rsaA); cert (KeyOther "*dsa.PublicKey")]
  | _ => inl "asn1: syntax error"
  end.

Definition ParsePKIXPublicKey (der : bytes) : string + AnyKey :=
  match bodyOf der with
  | 3%N => inr (KeyECDSA ecA)
  | _ => inl "asn1: syntax error"
  end.

Definition ParseECPrivateKey (der : bytes) : string + ecdsa.PrivateKey :=
  match bodyOf der with
  | 4%N => inr {| ecdsa.Public := ecA; ecdsa.D := 11 |}
  | _ => inl "x509: failed to parse EC private key"
  end.

Definition ParsePKCS1PrivateKey (der : bytes) : string + rsa.PrivateKey :=
  match bodyOf der with
  | 5%N => inr {| rsa.Public := rsaB; rsa.D := 157; rsa.Primes := [47; 59]%Z |}
  | _ => inl "asn1: syntax error"
  end.

(** A toy signature scheme: the signature of [content] under a key is the
    key's number followed by the content. *)
Definition lib : GoLib := {|
  pem_Decode := Decode;
  pem_Decode_rest := Decode_rest;
  x509_IsEncryptedPEMBlock block :=
    existsb (fun kv => String.eqb (fst kv) "DEK-Info") (pem.Headers block);
  x509_DecryptPEMBlock := DecryptPEMBlock;
  x509_ParseCertificates := ParseCertificates;
  x509_ParsePKIXPublicKey := ParsePKIXPublicKey;
  x509_ParseECPrivateKey := ParseECPrivateKey;
  x509_ParsePKCS1PrivateKey := ParsePKCS1PrivateKey;
  hmac_Sum _ secret content := secret ++ content;
  hmac_Equal := bytes_eqb;
  hash_Sum _ content := content;
  rsa_VerifyPKCS1v15 key _ digestSum sig :=
    if Z.eqb (SetBytes sig) (rsa.N key) then None
    else Some "crypto/rsa: verification error";
  ecdsa_Verify key _ r s := Z.eqb r (ecdsa.X key) && Z.eqb s (ecdsa.Y key)
|}.




Definition lookup (alg : string) (algs : AlgTable) : error + Hash :=
  match find (fun kv => String.eqb (fst kv) alg) algs with
  | Some kv => inr (snd kv)
  | None => inl ErrAlgUnk
  end.

(** Tokens of the scripted package: the first byte names the algorithm
    (H, R, E, or anything else for an algorithm of no table), the remaining
    bytes are the signature, and the signed content is the first byte. *)
Definition pkg : Package := {|
  HMACAlgs := [("HS256", 5%N); ("HS384", 6%N); ("HS512", 7%N)];
  RSAAlgs := [("RS256", 5%N); ("RS384", 6%N); ("RS512", 7%N)];
  ECDSAAlgs := [("ES256", 5%N); ("ES384", 6%N); ("ES512", 7%N)];
  parseHeader token :=
    match token with
    | [] => inl (errOther "jwt: malformed token")
    | x :: _ =>
        inr ({| Alg := if N.eqb (Byte.to_N x) 72 then "HS256"
                       else if N.eqb (Byte.to_N x) 82 then "RS256"
                       else if N.eqb (Byte.to_N x) 69 then "ES256"
                       else "XX000";
                Kid := "kid" |}, [])
    end;
  header_match h algs := lookup (Alg h) algs;
  decodeSignature token _ :=
    match token with
    | [] => inl (errOther "jwt: malformed token")
    | x :: sig => inr ([x], sig)
    end;
  parseClaims token _ := inr {| Raw := token; KeyID := "" |}
|}.

End Stub.

(** ** Vocabulary of the further properties *)

(** The four block types the switch of [LoadPEM] has a case for. *)
Definition knownType (type : string) : bool :=
  String.eqb type "CERTIFICATE" || String.eqb type "PUBLIC KEY"
  || String.eqb type "EC PRIVATE KEY" || String.eqb type "RSA PRIVATE KEY".

(** The key types the switch of [add] has a case for. *)
Definition supported (key : AnyKey) : bool :=
  match key with
  | KeyECDSA _ | KeyRSA _ => true
  | KeyOther _ => false
  end.

(** A result of [LoadPEM] with [k] added to its count. *)
Definition shiftCount (k : nat) (res : KeyRegister * nat * option error)
  : KeyRegister * nat * option error :=
  let '(r, n, err) := res in (r, k + n, err).

(** Two registers hold the same candidates for [family]. *)
Definition sameCandidates (family : Family) (r1 r2 : KeyRegister) : Prop :=
  match family with
  | HMAC => Secrets r1 = Secrets r2
  | RSA => RSAs r1 = RSAs r2
  | ECDSA => ECDSAs r1 = ECDSAs r2
  end.

Section Outcome.
Context {lib : GoLib} {pkg : Package}.

(** The closure [Check] binds to [verifySig] in the branch of [family]. *)
Definition closure (family : Family) : bytes -> bytes -> Hash -> M (option error) :=
  match family with
  | HMAC => verifyHMAC
  | RSA => verifyRSA
  | ECDSA => verifyECDSA
  end.

(** Some candidate of [family] in [r] passes the primitive of that family on
    [content] and [sig]. *)
Definition accepts (family : Family) (r : KeyRegister) (content sig : bytes)
  (hash : Hash) : bool :=
  match family with
  | HMAC =>
      existsb (fun secret => hmac_Equal sig (hmac_Sum hash secret content)) (Secrets r)
  | RSA =>
      existsb (fun key =>
                 match rsa_VerifyPKCS1v15 key hash (hash_Sum hash content) sig with
                 | None => true
                 | Some _ => false
                 end) (RSAs r)
  | ECDSA =>
      existsb (fun key =>
                 ecdsa_Verify key (hash_Sum hash content)
                   (SetBytes (firstn (length sig / 2) sig))
                   (SetBytes (skipn (length sig / 2) sig))) (ECDSAs r)
  end.

(** The if-else chain of [Check] ends in the branch of [family] with [hash]:
    the tables before it answered [ErrAlgUnk] and its own table gave [hash]. *)
Definition selects (h : header) (family : Family) (hash : Hash) : Prop :=
  match family with
  | HMAC => header_match h HMACAlgs = inr hash
  | RSA =>
      header_match h HMACAlgs = inl ErrAlgUnk /\ header_match h RSAAlgs = inr hash
  | ECDSA =>
      header_match h HMACAlgs = inl ErrAlgUnk /\
      header_match h RSAAlgs = inl ErrAlgUnk /\ header_match h ECDSAAlgs = inr hash
  end.

End Outcome.

(** * Properties *)

(** ** Registers *)

Lemma join_empty r : join r emptyRegister = r.
Proof. destruct r; unfold join; simpl. now rewrite !app_nil_r. Qed.

Lemma join_assoc a b c : join (join a b) c = join a (join b c).
Proof. unfold join; simpl. now rewrite !app_assoc. Qed.

Lemma credentials_join a b : credentials (join a b) = credentials a + credentials b.
Proof. unfold credentials, join; simpl. rewrite !length_app. lia. Qed.

Lemma extends_refl r : extends r r.
Proof. exists [], []. now rewrite !app_nil_r. Qed.

Lemma extends_trans a b c : extends a b -> extends b c -> extends a c.
Proof.
  intros (e1 & r1 & He1 & Hr1 & Hs1) (e2 & r2 & He2 & Hr2 & Hs2).
  exists (e1 ++ e2), (r1 ++ r2).
  rewrite He2, Hr2, Hs2, He1, Hr1, Hs1, !app_assoc. auto.
Qed.

Lemma extends_credentials r r' : extends r r' -> credentials r <= credentials r'.
Proof.
  intros (e & s & He & Hr & Hs). unfold credentials.
  rewrite He, Hr, Hs, !length_app. lia.
Qed.

(** ** The loop body does the same to every register *)

Section LoadFacts.
Context {lib : GoLib}.

Lemma add_join r key :
  add r key = (join r (fst (add emptyRegister key)), snd (add emptyRegister key)).
Proof.
  destruct key; simpl; unfold join; simpl; rewrite ?app_nil_r; try reflexivity.
  now destruct r.
Qed.

Lemma addCertificates_join certs : forall r,
  addCertificates r certs =
  (join r (fst (addCertificates emptyRegister certs)),
   snd (addCertificates emptyRegister certs)).
Proof.
  induction certs as [|c certs IH]; intros r; simpl.
  - now rewrite join_empty.
  - rewrite (add_join r). destruct (add emptyRegister (x509.PublicKey c)) as [a [err|]] eqn:Ha.
    + reflexivity.
    + simpl. rewrite (IH (join r a)), (IH a), join_assoc. reflexivity.
Qed.

Lemma switchType_join r block :
  switchType r block =
  (join r (fst (switchType emptyRegister block)), snd (switchType emptyRegister block)).
Proof.
  unfold switchType.
  repeat match goal with
         | |- context [if ?b then _ else _] => destruct b
         | |- context [match ?x with inl _ => _ | inr _ => _ end] => destruct x
         end;
    simpl; rewrite ?join_empty; auto using add_join, addCertificates_join;
    unfold join; simpl; now rewrite ?app_nil_r.
Qed.

Lemma loadBlock_join r block password :
  loadBlock r block password =
  (join r (fst (loadBlock emptyRegister block password)),
   snd (loadBlock emptyRegister block password)).
Proof.
  unfold loadBlock. destruct (openBlock block password).
  - simpl. now rewrite join_empty.
  - apply switchType_join.
Qed.

Lemma loadBlock_credentials r block password :
  credentials (fst (loadBlock r block password)) =
  credentials r + contributes block password.
Proof. rewrite loadBlock_join. simpl. apply credentials_join. Qed.

Lemma add_extends r key : extends r (fst (add r key)).
Proof.
  destruct key; simpl; [exists [t], [] | exists [], [t] | apply extends_refl];
    simpl; now rewrite ?app_nil_r.
Qed.

Lemma addCertificates_extends certs : forall r,
  extends r (fst (addCertificates r certs)).
Proof.
  induction certs as [|c certs IH]; intros r; simpl.
  - apply extends_refl.
  - pose proof (add_extends r (x509.PublicKey c)) as Ha.
    destruct (add r (x509.PublicKey c)) as [r' [err|]]; simpl in *; [exact Ha|].
    eapply extends_trans; [exact Ha | apply IH].
Qed.

Lemma switchType_extends r block : extends r (fst (switchType r block)).
Proof.
  unfold switchType.
  repeat match goal with
         | |- context [if ?b then _ else _] => destruct b
         | |- context [match ?x with inl _ => _ | inr _ => _ end] => destruct x
         end;
    simpl; auto using extends_refl, add_extends, addCertificates_extends.
  - eexists [_], []. simpl. now rewrite app_nil_r.
  - eexists [], [_]. simpl. now rewrite app_nil_r.
Qed.

Lemma loadBlock_extends r block password :
  extends r (fst (loadBlock r block password)).
Proof.
  unfold loadBlock. destruct (openBlock block password); simpl.
  - apply extends_refl.
  - apply switchType_extends.
Qed.

Lemma loadBlocks_extends blocks password : forall r n,
  extends r (fst (fst (loadBlocks r n blocks password))).
Proof.
  induction blocks as [|b blocks IH]; intros r n; simpl.
  - apply extends_refl.
  - pose proof (loadBlock_extends r b password) as Hb.
    destruct (loadBlock r b password) as [r' [err|]]; simpl in *; [exact Hb|].
    eapply extends_trans; [exact Hb | apply IH].
Qed.

Lemma loadBlocks_count blocks password : forall r n r' n',
  loadBlocks r n blocks password = (r', n', None) -> n' = n + length blocks.
Proof.
  induction blocks as [|b blocks IH]; intros r n r' n'; simpl.
  - intros [= _ <-]. lia.
  - destruct (loadBlock r b password) as [r1 [err|]]; [discriminate|].
    intros H. apply IH in H. lia.
Qed.

Lemma loadBlocks_credentials blocks password : forall r n r' n',
  loadBlocks r n blocks password = (r', n', None) ->
  credentials r' =
  credentials r + list_sum (map (fun b => contributes b password) blocks).
Proof.
  induction blocks as [|b blocks IH]; intros r n r' n'; simpl.
  - intros [= <- _]. lia.
  - pose proof (loadBlock_credentials r b password) as Hb.
    destruct (loadBlock r b password) as [r1 [err|]]; [discriminate|].
    intros H. apply IH in H. simpl in Hb. lia.
Qed.

End LoadFacts.

(** ** The loop of LoadPEM *)

Section LoopFacts.
Context {lib : GoLib}.

(** Fuel beyond the length of the input makes no difference. *)
Lemma loadLoop_fuel fuel1 : forall fuel2 r n data password,
  length data < fuel1 -> length data < fuel2 ->
  loadLoop fuel1 r n data password = loadLoop fuel2 r n data password.
Proof.
  induction fuel1 as [|fuel1 IH]; intros [|fuel2] r n data password H1 H2; try lia.
  cbn [loadLoop].
  destruct (pem_Decode data) as [[block remainder]|] eqn:Hd; [|reflexivity].
  apply pem_Decode_rest in Hd.
  destruct (loadBlock r block password) as [r' [err|]]; [reflexivity|].
  apply IH; lia.
Qed.

(** The loop run over a decoded prefix of the input. *)
Lemma loadLoop_decodes data blocks rest :
  decodes data blocks rest ->
  forall fuel r n password, length data < fuel ->
  loadLoop fuel r n data password =
  match loadBlocks r n blocks password with
  | (r', n', Some err) => Some (r', n', Some err)
  | (r', n', None) => loadLoop (S (length rest)) r' n' rest password
  end.
Proof.
  induction 1 as [data|data block remainder blocks rest Hd _ IH];
    intros fuel r n password Hfuel.
  - apply loadLoop_fuel; lia.
  - destruct fuel as [|fuel]; [lia|].
    cbn [loadLoop loadBlocks]. rewrite Hd.
    apply pem_Decode_rest in Hd.
    destruct (loadBlock r block password) as [r' [err|]]; [reflexivity|].
    apply IH; lia.
Qed.

(** Every input splits into its blocks and a rest that holds no block. *)
Lemma decodes_all data :
  exists blocks rest, decodes data blocks rest /\ pem_Decode rest = None.
Proof.
  remember (length data) as len eqn:Hlen.
  revert data Hlen.
  induction len as [len IH] using lt_wf_ind; intros data ->.
  destruct (pem_Decode data) as [[block remainder]|] eqn:Hd.
  - destruct (IH (length remainder) (pem_Decode_rest _ _ _ Hd) remainder eq_refl)
      as (blocks & rest & Hdec & Hrest).
    exists (block :: blocks), rest. split; [econstructor; eauto | exact Hrest].
  - exists [], data. split; [constructor | exact Hd].
Qed.

(** [LoadPEM] is the loop body folded over the blocks of the input. *)
Lemma LoadPEM_blocks r data password blocks rest :
  decodes data blocks rest -> pem_Decode rest = None ->
  LoadPEM r data password = Some (loadBlocks r 0 blocks password).
Proof.
  intros Hdec Hrest. unfold LoadPEM.
  rewrite (loadLoop_decodes _ _ _ Hdec) by lia.
  destruct (loadBlocks r 0 blocks password) as [[r' n'] [err|]]; [reflexivity|].
  cbn [loadLoop]. now rewrite Hrest.
Qed.

(** A call that fails on a block after a run of good ones. *)
Lemma LoadPEM_fails_at r data password blocks mid bad rest r1 n1 r2 err :
  decodes data blocks mid -> pem_Decode mid = Some (bad, rest) ->
  loadBlocks r 0 blocks password = (r1, n1, None) ->
  loadBlock r1 bad password = (r2, Some err) ->
  LoadPEM r data password = Some (r2, n1, Some err).
Proof.
  intros Hdec Hmid Hgood Hbad. unfold LoadPEM.
  rewrite (loadLoop_decodes _ _ _ Hdec) by lia.
  rewrite Hgood. cbn [loadLoop]. now rewrite Hmid, Hbad.
Qed.

(** Every failing run is of that shape. *)
Lemma loadLoop_failed fuel : forall r n data password r2 n2 err,
  loadLoop fuel r n data password = Some (r2, n2, Some err) ->
  exists blocks mid bad rest r1,
    decodes data blocks mid /\ pem_Decode mid = Some (bad, rest) /\
    loadBlocks r n blocks password = (r1, n2, None) /\
    loadBlock r1 bad password = (r2, Some err).
Proof.
  induction fuel as [|fuel IH]; intros r n data password r2 n2 err; [discriminate|].
  cbn [loadLoop].
  destruct (pem_Decode data) as [[block remainder]|] eqn:Hd; [|discriminate].
  destruct (loadBlock r block password) as [r' [e|]] eqn:Hb.
  - intros [= <- <- <-].
    exists [], data, block, remainder, r. repeat split; auto. constructor.
  - intros H. apply IH in H as (blocks & mid & bad & rest & r1 & Hdec & Hmid & Hgood & Hbad).
    exists (block :: blocks), mid, bad, rest, r1. repeat split; auto.
    + econstructor; eauto.
    + cbn [loadBlocks]. now rewrite Hb.
Qed.

Lemma LoadPEM_failed r data password r2 n2 err :
  LoadPEM r data password = Some (r2, n2, Some err) <->
  exists blocks mid bad rest r1,
    decodes data blocks mid /\ pem_Decode mid = Some (bad, rest) /\
    loadBlocks r 0 blocks password = (r1, n2, None) /\
    loadBlock r1 bad password = (r2, Some err).
Proof.
  split.
  - apply loadLoop_failed.
  - intros (blocks & mid & bad & rest & r1 & Hdec & Hmid & Hgood & Hbad).
    eapply LoadPEM_fails_at; eauto.
Qed.


End LoopFacts.

(** ** The password step *)

Section PasswordFacts.
Context {lib : GoLib}.




End PasswordFacts.

(** ** LoadPEM: the claims *)

(** C4.  [LoadPEM] counts blocks, not credentials: on a buffer holding one
    CERTIFICATE block with two certificates it appends both public keys and
    returns the count 1. *)
Theorem LoadPEM_two_certificates_count_one :
  LoadPEM (lib := Stub.lib) emptyRegister [Byte.x02] [] =
  Some ({| ECDSAs := []; RSAs := [Stub.rsaA; Stub.rsaB]; Secrets := [] |}, 1, None)
  /\ credentials {| ECDSAs := []; RSAs := [Stub.rsaA; Stub.rsaB]; Secrets := [] |} = 2.
Proof. split; reflexivity. Qed.



(** Counterexample to C6 as stated: one valid block (a CERTIFICATE block with
    two certificates) followed by one invalid block (a type [LoadPEM] does
    not know) reports the error with count 1, and two credentials are
    registered, not one. *)
Lemma LoadPEM_valid_block_two_credentials :
  LoadPEM (lib := Stub.lib) emptyRegister [Byte.x02; Byte.x06] [] =
  Some ({| ECDSAs := []; RSAs := [Stub.rsaA; Stub.rsaB]; Secrets := [] |}, 1,
        Some (errUnknownPEMType "DSA PRIVATE KEY"))
  /\ credentials {| ECDSAs := []; RSAs := [Stub.rsaA; Stub.rsaB]; Secrets := [] |}
     <> 1.
Proof. split; [reflexivity | discriminate]. Qed.

(** C6, amended.  When [LoadPEM] fails on a block after [blocks] have loaded,
    it returns at once with that error, whatever follows in the input, and
    the register keeps everything appended so far: it extends the register
    the call started with, by the credentials the blocks contributed.  When
    every loaded block contributed one credential and the failing block
    none, the count returned with the error is the number of those blocks,
    and exactly that many credentials have been registered. *)
Theorem LoadPEM_stops_at_failing_block {lib : GoLib}
  r data password blocks mid bad rest r1 r2 err :
  decodes data blocks mid -> pem_Decode mid = Some (bad, rest) ->
  fst (fst (loadBlocks r 0 blocks password)) = r1 ->
  snd (loadBlocks r 0 blocks password) = None ->
  loadBlock r1 bad password = (r2, Some err) ->
  (exists n, LoadPEM r data password = Some (r2, n, Some err))
  /\ extends r r1 /\ extends r1 r2
  /\ credentials r2 =
     credentials r + list_sum (map (fun b => contributes b password) blocks)
     + contributes bad password
  /\ (Forall (fun b => contributes b password = 1) blocks ->
      contributes bad password = 0 ->
      LoadPEM r data password = Some (r2, length blocks, Some err) /\
      credentials r2 = credentials r + length blocks).
Proof.
  intros Hdec Hmid Hr1 Hnone Hbad.
  destruct (loadBlocks r 0 blocks password) as [[r1' n1] e1] eqn:Hgood.
  simpl in Hr1, Hnone. subst r1' e1.
  pose proof (loadBlocks_count _ _ _ _ _ _ Hgood) as Hn. simpl in Hn. subst n1.
  pose proof (loadBlocks_credentials _ _ _ _ _ _ Hgood) as Hc1.
  pose proof (loadBlock_credentials r1 bad password) as Hc2.
  rewrite Hbad in Hc2. simpl in Hc2.
  assert (Hrun : LoadPEM r data password = Some (r2, length blocks, Some err))
    by (eapply LoadPEM_fails_at; eauto).
  split; [eauto|].
  split. { pose proof (loadBlocks_extends blocks password r 0) as H.
           now rewrite Hgood in H. }
  split. { pose proof (loadBlock_extends r1 bad password) as H.
           now rewrite Hbad in H. }
  split; [lia|].
  intros Hone Hzero. split; [exact Hrun|].
  assert (Hsum : list_sum (map (fun b => contributes b password) blocks) = length blocks).
  { clear -Hone. induction Hone as [|b bs Hb _ IH]; simpl; [reflexivity|].
    rewrite Hb, IH. reflexivity. }
  lia.
Qed.

(** Witness of C6: a public key and an EC private key, then a block of
    unknown type, then a certificate that is never reached. *)
Lemma LoadPEM_stops_at_failing_block_witness :
  LoadPEM (lib := Stub.lib) emptyRegister
    [Byte.x03; Byte.x04; Byte.x06; Byte.x01] [] =
  Some ({| ECDSAs := [Stub.ecA; Stub.ecA]; RSAs := []; Secrets := [] |},
        length [Stub.plain "PUBLIC KEY" Byte.x03; Stub.plain "EC PRIVATE KEY" Byte.x04],
        Some (errUnknownPEMType "DSA PRIVATE KEY"))
  /\ credentials {| ECDSAs := [Stub.ecA; Stub.ecA]; RSAs := []; Secrets := [] |} =
     credentials emptyRegister +
     length [Stub.plain "PUBLIC KEY" Byte.x03; Stub.plain "EC PRIVATE KEY" Byte.x04].
Proof.
  refine (proj2 (proj2 (proj2 (proj2
            (LoadPEM_stops_at_failing_block (lib := Stub.lib)
               emptyRegister [Byte.x03; Byte.x04; Byte.x06; Byte.x01] []
               [Stub.plain "PUBLIC KEY" Byte.x03; Stub.plain "EC PRIVATE KEY" Byte.x04]
               [Byte.x06; Byte.x01] (Stub.plain "DSA PRIVATE KEY" Byte.x06) [Byte.x01]
               {| ECDSAs := [Stub.ecA; Stub.ecA]; RSAs := []; Secrets := [] |}
               {| ECDSAs := [Stub.ecA; Stub.ecA]; RSAs := []; Secrets := [] |}
               (errUnknownPEMType "DSA PRIVATE KEY") _ _ _ _ _)))) _ _);
    try reflexivity.
  - repeat (econstructor; try reflexivity).
  - repeat constructor.
Defined.




(** C10.  An input in which [pem.Decode] finds no block (the empty input is
    one) gives count 0, no error and the register unchanged.  Bytes left
    after the last block play no part: the result is that of the blocks
    alone, the same as for any other input with those blocks. *)
Theorem LoadPEM_without_blocks {lib : GoLib} r data password :
  LoadPEM r [] password = Some (r, 0, None)
  /\ (pem_Decode data = None -> LoadPEM r data password = Some (r, 0, None))
  /\ (forall blocks rest,
      decodes data blocks rest -> pem_Decode rest = None ->
      LoadPEM r data password = Some (loadBlocks r 0 blocks password)
      /\ forall data' rest',
         decodes data' blocks rest' -> pem_Decode rest' = None ->
         LoadPEM r data' password = LoadPEM r data password).
Proof.
  assert (Hnone : forall d, pem_Decode d = None ->
                            LoadPEM r d password = Some (r, 0, None)).
  { intros d Hd. apply (LoadPEM_blocks r d password [] d); [constructor | exact Hd]. }
  split; [|split].
  - apply Hnone. destruct (pem_Decode []) as [[block rest]|] eqn:Hd; [|reflexivity].
    apply pem_Decode_rest in Hd. simpl in Hd. lia.
  - apply Hnone.
  - intros blocks rest Hdec Hrest. split.
    + now apply LoadPEM_blocks with (rest := rest).
    + intros data' rest' Hdec' Hrest'.
      rewrite (LoadPEM_blocks _ _ _ _ _ Hdec Hrest).
      now apply LoadPEM_blocks with (rest := rest').
Qed.

(** Witness of C10: bytes that are no block, alone and after a block. *)
Lemma LoadPEM_without_blocks_witness :
  LoadPEM (lib := Stub.lib) emptyRegister [Byte.xff; Byte.x00] [] =
  Some (emptyRegister, 0, None)
  /\ LoadPEM (lib := Stub.lib) emptyRegister [Byte.x03; Byte.xff; Byte.x00] [] =
     LoadPEM (lib := Stub.lib) emptyRegister [Byte.x03] [].
Proof.
  split.
  - apply (proj1 (proj2 (LoadPEM_without_blocks (lib := Stub.lib)
                           emptyRegister [Byte.xff; Byte.x00] []))).
    reflexivity.
  - apply (proj2 (proj2 (LoadPEM_without_blocks (lib := Stub.lib)
                           emptyRegister [Byte.x03] []))
             [Stub.plain "PUBLIC KEY" Byte.x03] []);
      try reflexivity; repeat (econstructor; try reflexivity).
Defined.

(** ** Check: the candidate loop *)

Lemma world_eta w : {| register := register w; calls := calls w ++ [] |} = w.
Proof. destruct w; simpl. now rewrite app_nil_r. Qed.

Lemma attempted_stops {K} (ok : K -> bool) (ev : K -> call) keys :
  stopsAtFirst ok ev keys
    (if existsb ok keys then None else Some ErrSigMiss)
    (map ev (attempted ok keys)).
Proof.
  induction keys as [|key keys IH]; simpl.
  - right. repeat split. intros k [].
  - destruct (ok key) eqn:Hkey; simpl.
    + left. exists [], key, keys. repeat split; auto. intros k [].
    + destruct IH as [(before & k1 & after & -> & Hbefore & Hk1 & -> & ->)
                     |(Hall & -> & ->)].
      * left. exists (key :: before), k1, after. repeat split; auto.
        intros k [<-|Hin]; auto.
      * right. repeat split; auto. intros k [<-|Hin]; auto.
Qed.

Section VerifyFacts.
Context {lib : GoLib} {pkg : Package}.

(** What the loop returns and which calls it makes. *)
Lemma rangeKeys_run {K} (ok : K -> bool) (ev : K -> call) keys : forall w,
  rangeKeys ok ev keys w =
  (if existsb ok keys then None else Some ErrSigMiss,
   {| register := register w; calls := calls w ++ map ev (attempted ok keys) |}).
Proof.
  induction keys as [|key keys IH]; intros w; simpl.
  - unfold ret. now rewrite world_eta.
  - unfold bind, called. destruct (ok key); simpl.
    + reflexivity.
    + rewrite IH. simpl. now rewrite <- app_assoc.
Qed.

Lemma Forall_map_const {K} (P : call -> Prop) (ev : K -> call) keys :
  (forall k, P (ev k)) -> Forall P (map ev keys).
Proof. intros H. induction keys; simpl; constructor; auto. Qed.

Lemma verifyHMAC_for : verifierFor HMAC verifyHMAC.
Proof.
  intros content sig hash w. unfold verifyHMAC, bind, reg.
  rewrite rangeKeys_run. eexists. split; [reflexivity|]. split.
  - now apply Forall_map_const.
  - intros w' Hw. rewrite rangeKeys_run, Hw. reflexivity.
Qed.

Lemma verifyRSA_for : verifierFor RSA verifyRSA.
Proof.
  intros content sig hash w. unfold verifyRSA, bind, reg.
  rewrite rangeKeys_run. eexists. split; [reflexivity|]. split.
  - now apply Forall_map_const.
  - intros w' Hw. rewrite rangeKeys_run, Hw. reflexivity.
Qed.

Lemma verifyECDSA_for : verifierFor ECDSA verifyECDSA.
Proof.
  intros content sig hash w. unfold verifyECDSA, bind, reg.
  rewrite rangeKeys_run. eexists. split; [reflexivity|]. split.
  - now apply Forall_map_const.
  - intros w' Hw. rewrite rangeKeys_run, Hw. reflexivity.
Qed.

(** The tail of [Check] makes the calls of its closure and no others. *)
Lemma checkWith_run token buf h hash family verifySig w :
  verifierFor family verifySig ->
  exists vs,
    snd (checkWith token buf h hash verifySig w) =
    {| register := register w; calls := calls w ++ vs |} /\
    Forall (fun c => verifierOf c = Some family) vs /\
    forall w', register w' = register w ->
               fst (checkWith token buf h hash verifySig w') =
               fst (checkWith token buf h hash verifySig w).
Proof.
  intros Hfor. unfold checkWith, verifyAndParseClaims, bind, ret.
  destruct (decodeSignature token buf) as [err|[content sig]].
  - exists []. rewrite world_eta. auto.
  - destruct (Hfor content sig hash w) as (cs & Hsnd & Hcs & Hfst).
    exists cs. split; [|split; [exact Hcs|]].
    + destruct (verifySig content sig hash w) as [[err|] w1]; simpl in *;
        destruct (parseClaims token buf); exact Hsnd.
    + intros w' Hw. specialize (Hfst w' Hw).
      destruct (verifySig content sig hash w) as [res w1],
               (verifySig content sig hash w') as [res' w1'].
      simpl in Hfst. subst res'.
      destruct res; [reflexivity|]. destruct (parseClaims token buf); reflexivity.
Qed.

End VerifyFacts.

(** ** Check: the claims *)

(** C1.  [Check] looks the header up in the HMAC table, then the RSA table,
    then the ECDSA table, and stops at the first table that does not answer
    [ErrAlgUnk].  The calls it makes are those lookups, in that order,
    followed by the calls of one verifier; a verifier of family [f] is called
    only if the last table tried is that of [f] and gave a hash.  If that
    table gave an error instead, no verifier is called and [Check] returns
    the error and no claims; so an algorithm that is in none of the three
    tables gets [ErrAlgUnk] after the three lookups. *)
Theorem Check_tries_families_in_order {lib : GoLib} {pkg : Package}
  (token : bytes) (r : KeyRegister) :
  let out := Check token (start r) in
  match parseHeader token with
  | inl err => out = (inl err, start r)
  | inr (h, buf) =>
      (exists k vs,
          1 <= k <= 3 /\
          calls (snd out) = map call_match (firstn k [HMAC; RSA; ECDSA]) ++ vs /\
          (forall f, In f (firstn (k - 1) [HMAC; RSA; ECDSA]) ->
                     header_match h (algsOf f) = inl ErrAlgUnk) /\
          exists f, nth_error [HMAC; RSA; ECDSA] (k - 1) = Some f /\
            match header_match h (algsOf f) with
            | inr hash => Forall (fun c => verifierOf c = Some f) vs
            | inl err => vs = [] /\ fst out = inl err /\ (err = ErrAlgUnk -> k = 3)
            end)
      /\ ((forall f, header_match h (algsOf f) = inl ErrAlgUnk) ->
          out = (inl ErrAlgUnk,
                 {| register := r; calls := map call_match [HMAC; RSA; ECDSA] |}))
  end.
Proof.
  intros out. subst out. unfold Check.
  destruct (parseHeader token) as [err|[h buf]]; [reflexivity|].
  unfold matchFamily, bind, called, ret, start. simpl.
  assert (Hrun : forall hash f v w, verifierFor f v ->
            exists vs, snd (checkWith token buf h hash v w) =
                       {| register := register w; calls := calls w ++ vs |} /\
                       Forall (fun c => verifierOf c = Some f) vs).
  { intros hash f v w Hv.
    destruct (checkWith_run token buf h hash f v w Hv) as (vs & Hsnd & Hvs & _).
    eauto. }
  split.
  - destruct (header_match h HMACAlgs) as [e1|hash1] eqn:H1.
    + destruct (error_eq_dec e1 ErrAlgUnk) as [->|Hne1].
      * destruct (header_match h RSAAlgs) as [e2|hash2] eqn:H2.
        -- destruct (error_eq_dec e2 ErrAlgUnk) as [->|Hne2].
           ++ exists 3. destruct (header_match h ECDSAAlgs) as [e3|hash3] eqn:H3.
              ** exists []. split; [lia|]. split; [reflexivity|]. split.
                 { intros f [<-|[<-|[]]]; assumption. }
                 exists ECDSA. split; [reflexivity|]. simpl. rewrite H3. auto.
              ** edestruct (Hrun hash3 ECDSA) as (vs & Hsnd & Hvs);
                   [apply verifyECDSA_for|].
                 exists vs. rewrite Hsnd. split; [lia|]. split; [reflexivity|]. split.
                 { intros f [<-|[<-|[]]]; assumption. }
                 exists ECDSA. split; [reflexivity|]. simpl. now rewrite H3.
           ++ exists 2, []. split; [lia|]. split; [reflexivity|]. split.
              { intros f [<-|[]]; assumption. }
              exists RSA. split; [reflexivity|]. simpl. rewrite H2.
              repeat split. intros ->. now contradiction Hne2.
        -- edestruct (Hrun hash2 RSA) as (vs & Hsnd & Hvs); [apply verifyRSA_for|].
           exists 2, vs. rewrite Hsnd. split; [lia|]. split; [reflexivity|]. split.
           { intros f [<-|[]]; assumption. }
           exists RSA. split; [reflexivity|]. simpl. now rewrite H2.
      * exists 1, []. split; [lia|]. split; [reflexivity|]. split.
        { intros f []. }
        exists HMAC. split; [reflexivity|]. simpl. rewrite H1.
        repeat split. intros ->. now contradiction Hne1.
    + edestruct (Hrun hash1 HMAC) as (vs & Hsnd & Hvs); [apply verifyHMAC_for|].
      exists 1, vs. rewrite Hsnd. split; [lia|]. split; [reflexivity|]. split.
      { intros f []. }
      exists HMAC. split; [reflexivity|]. simpl. now rewrite H1.
  - intros Hall.
    pose proof (Hall HMAC) as H1. pose proof (Hall RSA) as H2.
    pose proof (Hall ECDSA) as H3. simpl in H1, H2, H3.
    rewrite H1. simpl. rewrite H2. simpl. rewrite H3. reflexivity.
Qed.

(** Witness of C1: a token whose algorithm is in no table is refused with
    [ErrAlgUnk] after the three lookups, and no verifier is called. *)
Lemma Check_tries_families_in_order_witness :
  Check (lib := Stub.lib) (pkg := Stub.pkg) [Byte.x58; Byte.x05]
    (start {| ECDSAs := [Stub.ecA]; RSAs := [Stub.rsaA]; Secrets := [[Byte.x05]] |}) =
  (inl ErrAlgUnk,
   {| register := {| ECDSAs := [Stub.ecA]; RSAs := [Stub.rsaA]; Secrets := [[Byte.x05]] |};
      calls := map call_match [HMAC; RSA; ECDSA] |}).
Proof.
  apply (proj2 (Check_tries_families_in_order (lib := Stub.lib) (pkg := Stub.pkg)
                  [Byte.x58; Byte.x05]
                  {| ECDSAs := [Stub.ecA]; RSAs := [Stub.rsaA]; Secrets := [[Byte.x05]] |})).
  intros []; reflexivity.
Defined.

(** Counterexample to C2 as stated: on a signature of three bytes, an odd
    length that fits no curve, the ECDSA closure does not fail as malformed.
    It splits the buffer after its first byte into r = 1 and s = 0x0203,
    calls [ecdsa.Verify] on the registered key with them, and ends with
    [ErrSigMiss], the error of a signature no key accepts. *)
Lemma verifyECDSA_tries_odd_signature :
  Nat.odd (length [Byte.x01; Byte.x02; Byte.x03]) = true
  /\ verifyECDSA (lib := Stub.lib) [Byte.x45] [Byte.x01; Byte.x02; Byte.x03] 5%N
       (start {| ECDSAs := [Stub.ecA]; RSAs := []; Secrets := [] |}) =
     (Some ErrSigMiss,
      {| register := {| ECDSAs := [Stub.ecA]; RSAs := []; Secrets := [] |};
         calls := [call_ecdsa_Verify Stub.ecA [Byte.x45] 1 515] |}).
Proof. split; reflexivity. Qed.

(** C2, amended.  The ECDSA closure checks no length.  Whatever the length of
    the signature, it cuts the buffer at half its length rounded down, reads
    the first part as r and the rest as s, hashes the content once, and calls
    [ecdsa.Verify] with that digest, r and s on the registered keys in
    order until one accepts; it returns nil if one does and [ErrSigMiss]
    otherwise, and has no other error.  The two parts make up the whole
    buffer, and they have the same length when the length is even. *)
Theorem verifyECDSA_splits_any_signature {lib : GoLib}
  (content sig : bytes) (hash : Hash) (w : World) :
  let half := length sig / 2 in
  let r := SetBytes (firstn half sig) in
  let s := SetBytes (skipn half sig) in
  let digestSum := hash_Sum hash content in
  let ok key := ecdsa_Verify key digestSum r s in
  verifyECDSA content sig hash w =
  (if existsb ok (ECDSAs (register w)) then None else Some ErrSigMiss,
   {| register := register w;
      calls := calls w ++ map (fun key => call_ecdsa_Verify key digestSum r s)
                              (attempted ok (ECDSAs (register w))) |})
  /\ stopsAtFirst ok (fun key => call_ecdsa_Verify key digestSum r s)
       (ECDSAs (register w))
       (if existsb ok (ECDSAs (register w)) then None else Some ErrSigMiss)
       (map (fun key => call_ecdsa_Verify key digestSum r s)
            (attempted ok (ECDSAs (register w))))
  /\ firstn half sig ++ skipn half sig = sig
  /\ (Nat.even (length sig) = true ->
      length (firstn half sig) = length (skipn half sig)).
Proof.
  intros half r s digestSum ok. split; [|split; [|split]].
  - unfold verifyECDSA, bind, reg. now rewrite rangeKeys_run.
  - apply attempted_stops.
  - apply firstn_skipn.
  - intros Heven. rewrite length_firstn, length_skipn. subst half.
    apply Nat.even_spec in Heven as [m Hm]. rewrite Hm.
    replace (2 * m / 2) with m by (symmetry; rewrite Nat.mul_comm; apply Nat.div_mul; lia).
    lia.
Qed.

(** Witness of C2: a signature of four bytes is cut into two and two. *)
Lemma verifyECDSA_splits_any_signature_witness :
  length (firstn (length [Byte.x00; Byte.x05; Byte.x00; Byte.x01] / 2)
            [Byte.x00; Byte.x05; Byte.x00; Byte.x01]) =
  length (skipn (length [Byte.x00; Byte.x05; Byte.x00; Byte.x01] / 2)
            [Byte.x00; Byte.x05; Byte.x00; Byte.x01]).
Proof.
  apply (proj2 (proj2 (proj2 (verifyECDSA_splits_any_signature (lib := Stub.lib)
           [Byte.x45] [Byte.x00; Byte.x05; Byte.x00; Byte.x01] 5%N
           (start emptyRegister))))).
  reflexivity.
Defined.

(** C3.  Each of the three closures goes through the candidates of its
    family in the order of the register.  It makes one call of its primitive
    per candidate and stops at the first candidate the primitive accepts,
    returning nil; if the primitive accepts none, whatever it reported for
    each, the closure returns [ErrSigMiss] after the last candidate.  With no
    candidate at all it returns [ErrSigMiss] at once. *)
Theorem verifiers_stop_at_first_match {lib : GoLib}
  (content sig : bytes) (hash : Hash) (w : World) :
  (exists res cs,
      verifyHMAC content sig hash w =
      (res, {| register := register w; calls := calls w ++ cs |}) /\
      stopsAtFirst (fun secret => hmac_Equal sig (hmac_Sum hash secret content))
        (fun secret => call_hmac_Equal secret sig (hmac_Sum hash secret content))
        (Secrets (register w)) res cs)
  /\ (exists res cs,
      verifyRSA content sig hash w =
      (res, {| register := register w; calls := calls w ++ cs |}) /\
      stopsAtFirst
        (fun key => match rsa_VerifyPKCS1v15 key hash (hash_Sum hash content) sig with
                    | None => true
                    | Some _ => false
                    end)
        (fun key => call_rsa_VerifyPKCS1v15 key hash (hash_Sum hash content) sig)
        (RSAs (register w)) res cs)
  /\ (exists res cs,
      verifyECDSA content sig hash w =
      (res, {| register := register w; calls := calls w ++ cs |}) /\
      stopsAtFirst
        (fun key => ecdsa_Verify key (hash_Sum hash content)
                      (SetBytes (firstn (length sig / 2) sig))
                      (SetBytes (skipn (length sig / 2) sig)))
        (fun key => call_ecdsa_Verify key (hash_Sum hash content)
                      (SetBytes (firstn (length sig / 2) sig))
                      (SetBytes (skipn (length sig / 2) sig)))
        (ECDSAs (register w)) res cs)
  /\ (Secrets (register w) = [] ->
      verifyHMAC content sig hash w = (Some ErrSigMiss, w))
  /\ (RSAs (register w) = [] ->
      verifyRSA content sig hash w = (Some ErrSigMiss, w))
  /\ (ECDSAs (register w) = [] ->
      verifyECDSA content sig hash w = (Some ErrSigMiss, w)).
Proof.
  unfold verifyHMAC, verifyRSA, verifyECDSA, bind, reg.
  rewrite !rangeKeys_run.
  repeat split;
    try (do 2 eexists; split; [reflexivity | apply attempted_stops]);
    intros ->; simpl; now rewrite world_eta.
Qed.

(** Witness of C3: with no secret registered the HMAC closure reports
    [ErrSigMiss]. *)
Lemma verifiers_stop_at_first_match_witness :
  verifyHMAC (lib := Stub.lib) [Byte.x48] [Byte.x05; Byte.x48] 5%N
    (start emptyRegister) = (Some ErrSigMiss, start emptyRegister).
Proof.
  apply (verifiers_stop_at_first_match (lib := Stub.lib)
           [Byte.x48] [Byte.x05; Byte.x48] 5%N (start emptyRegister)).
  reflexivity.
Defined.

(** C9.  [Check] leaves the register as it found it, only adding to the
    record of calls; and what a call of [Check] returns depends on the
    token and the register alone, so an earlier call changes nothing for a
    later one. *)
Theorem Check_leaves_register {lib : GoLib} {pkg : Package}
  (token : bytes) (w : World) :
  register (snd (Check token w)) = register w
  /\ ECDSAs (register (snd (Check token w))) = ECDSAs (register w)
  /\ RSAs (register (snd (Check token w))) = RSAs (register w)
  /\ Secrets (register (snd (Check token w))) = Secrets (register w)
  /\ forall earlier, fst (Check token (snd (Check earlier w))) = fst (Check token w).
Proof.
  assert (Hcheck : forall t w0,
            register (snd (Check t w0)) = register w0 /\
            forall w', register w' = register w0 ->
                       fst (Check t w') = fst (Check t w0)).
  { intros t w0. unfold Check.
    destruct (parseHeader t) as [err|[h buf]]; [split; reflexivity|].
    unfold matchFamily, bind, called, ret. simpl.
    assert (Hrun : forall hash f v w1, verifierFor f v ->
              register (snd (checkWith t buf h hash v w1)) = register w1 /\
              forall w', register w' = register w1 ->
                         fst (checkWith t buf h hash v w') =
                         fst (checkWith t buf h hash v w1)).
    { intros hash f v w1 Hv.
      destruct (checkWith_run t buf h hash f v w1 Hv) as (vs & Hsnd & _ & Hfst).
      rewrite Hsnd. auto. }
    destruct (header_match h HMACAlgs) as [e1|hash1].
    - destruct (error_eq_dec e1 ErrAlgUnk) as [->|Hne1]; [|split; reflexivity].
      destruct (header_match h RSAAlgs) as [e2|hash2].
      + destruct (error_eq_dec e2 ErrAlgUnk) as [->|Hne2]; [|split; reflexivity].
        destruct (header_match h ECDSAAlgs) as [e3|hash3]; [split; reflexivity|].
        edestruct (Hrun hash3 ECDSA) as [H1 H2]; [apply verifyECDSA_for|].
        split; [exact H1 | intros w' Hw; apply H2; simpl; exact Hw].
      + edestruct (Hrun hash2 RSA) as [H1 H2]; [apply verifyRSA_for|].
        split; [exact H1 | intros w' Hw; apply H2; simpl; exact Hw].
    - edestruct (Hrun hash1 HMAC) as [H1 H2]; [apply verifyHMAC_for|].
      split; [exact H1 | intros w' Hw; apply H2; simpl; exact Hw]. }
  destruct (Hcheck token w) as [Hreg Hres].
  rewrite Hreg. repeat split.
  intros earlier. apply Hres. apply Hcheck.
Qed.

(** ** LoadPEM: further properties *)

(** [LoadPEM] returns on every input: [pem.Decode] shortens the input at each
    block, so the loop ends. *)
Theorem LoadPEM_always_returns {lib : GoLib} (r : KeyRegister) (data password : bytes) :
  exists r' n err, LoadPEM r data password = Some (r', n, err) /\ extends r r'.
Proof.
  destruct (decodes_all data) as (blocks & rest & Hdec & Hrest).
  rewrite (LoadPEM_blocks _ _ _ _ _ Hdec Hrest).
  pose proof (loadBlocks_extends blocks password r 0) as Hext.
  destruct (loadBlocks r 0 blocks password) as [[r' n'] err]. eauto.
Qed.

(** When [LoadPEM] returns no error, its count is the number of blocks in
    the input, and the register has grown by what those blocks contribute. *)
Theorem LoadPEM_counts_blocks {lib : GoLib} r data password blocks rest r' n :
  decodes data blocks rest -> pem_Decode rest = None ->
  LoadPEM r data password = Some (r', n, None) ->
  n = length blocks
  /\ credentials r' =
     credentials r + list_sum (map (fun b => contributes b password) blocks).
Proof.
  intros Hdec Hrest. rewrite (LoadPEM_blocks _ _ _ _ _ Hdec Hrest).
  intros [= H]. split.
  - apply loadBlocks_count in H. exact H.
  - eapply loadBlocks_credentials; eauto.
Qed.

(** Three blocks, one of them a certificate block with two certificates:
    count 3, four credentials. *)
Lemma LoadPEM_counts_blocks_witness :
  3 = length [Stub.plain "PUBLIC KEY" Byte.x03; Stub.plain "CERTIFICATE" Byte.x02;
              Stub.plain "RSA PRIVATE KEY" Byte.x05]
  /\ credentials {| ECDSAs := [Stub.ecA]; RSAs := [Stub.rsaA; Stub.rsaB; Stub.rsaB];
                    Secrets := [] |} =
     credentials emptyRegister +
     list_sum (map (fun b => contributes (lib := Stub.lib) b [])
                 [Stub.plain "PUBLIC KEY" Byte.x03; Stub.plain "CERTIFICATE" Byte.x02;
                  Stub.plain "RSA PRIVATE KEY" Byte.x05]).
Proof.
  apply (LoadPEM_counts_blocks (lib := Stub.lib) emptyRegister
           [Byte.x03; Byte.x02; Byte.x05] [] _ []).
  - repeat (econstructor; try reflexivity).
  - reflexivity.
  - reflexivity.
Defined.

(** * Further properties *)

(** ** LoadPEM and the register it is given *)

Section MoreLoadFacts.
Context {lib : GoLib}.

Lemma loadBlocks_join blocks password : forall r n,
  loadBlocks r n blocks password =
  (let '(r0, n0, err) := loadBlocks emptyRegister n blocks password in
   (join r r0, n0, err)).
Proof.
  induction blocks as [|b blocks IH]; intros r n; simpl.
  - now rewrite join_empty.
  - rewrite (loadBlock_join r).
    destruct (loadBlock emptyRegister b password) as [a [err|]]; simpl.
    + reflexivity.
    + rewrite (IH (join r a)), (IH a).
      destruct (loadBlocks emptyRegister (S n) blocks password) as [[r0 n0] e0].
      now rewrite join_assoc.
Qed.

Lemma openBlock_type block password opened :
  openBlock block password = inr opened -> pem.Type' opened = pem.Type' block.
Proof.
  unfold openBlock. destruct (x509_IsEncryptedPEMBlock block).
  - destruct (x509_DecryptPEMBlock block password); [discriminate|].
    now intros [= <-].
  - destruct (negb (Nat.eqb (length password) 0)); [discriminate|]. now intros [= <-].
Qed.

(** With a password, only an encrypted block that decrypts gets past the
    password step. *)
Lemma openBlock_with_password block password opened :
  password <> [] -> openBlock block password = inr opened ->
  x509_IsEncryptedPEMBlock block = true /\
  x509_DecryptPEMBlock block password = inr (pem.Bytes opened).
Proof.
  intros Hpw. unfold openBlock. destruct (x509_IsEncryptedPEMBlock block).
  - destruct (x509_DecryptPEMBlock block password); [discriminate|].
    intros [= <-]. auto.
  - destruct password; [now contradiction Hpw | discriminate].
Qed.

Lemma loadBlock_opened r block password r' :
  loadBlock r block password = (r', None) ->
  exists opened, openBlock block password = inr opened.
Proof.
  unfold loadBlock. destruct (openBlock block password); [discriminate|eauto].
Qed.

Lemma add_error r key r' err :
  add r key = (r', Some err) ->
  r' = r /\ exists name, key = KeyOther name /\ err = errUnsupportedKeyType name.
Proof. destruct key; simpl; intros [= <- <-]; eauto. Qed.

Lemma addCertificates_error certs : forall r r' err,
  addCertificates r certs = (r', Some err) ->
  exists name, err = errUnsupportedKeyType name.
Proof.
  induction certs as [|c certs IH]; intros r r' err; simpl; [discriminate|].
  destruct (add r (x509.PublicKey c)) as [ra [ea|]] eqn:Ha.
  - intros [= _ <-]. apply add_error in Ha as (_ & name & _ & ->). eauto.
  - apply IH.
Qed.

(** A block that is no CERTIFICATE adds one credential when it loads and none
    when it fails. *)
Lemma loadBlock_one_credential r block password :
  pem.Type' block <> "CERTIFICATE" ->
  credentials (fst (loadBlock r block password)) =
  credentials r + match snd (loadBlock r block password) with
                  | Some _ => 0
                  | None => 1
                  end.
Proof.
  intros Hty. unfold loadBlock.
  destruct (openBlock block password) as [e|opened] eqn:Hopen; simpl; [lia|].
  apply openBlock_type in Hopen. unfold switchType. rewrite Hopen.
  destruct (String.eqb_spec (pem.Type' block) "CERTIFICATE") as [E|_];
    [now contradiction Hty|].
  destruct (String.eqb (pem.Type' block) "PUBLIC KEY").
  { destruct (x509_ParsePKIXPublicKey (pem.Bytes opened)) as [text|[t|t|name]];
      unfold credentials; simpl; rewrite ?length_app; simpl; lia. }
  destruct (String.eqb (pem.Type' block) "EC PRIVATE KEY").
  { destruct (x509_ParseECPrivateKey (pem.Bytes opened));
      unfold credentials; simpl; rewrite ?length_app; simpl; lia. }
  destruct (String.eqb (pem.Type' block) "RSA PRIVATE KEY").
  { destruct (x509_ParsePKCS1PrivateKey (pem.Bytes opened));
      unfold credentials; simpl; rewrite ?length_app; simpl; lia. }
  simpl. lia.
Qed.

Lemma loadLoop_shift fuel k : forall r n data password,
  loadLoop fuel r (k + n) data password =
  option_map (shiftCount k) (loadLoop fuel r n data password).
Proof.
  induction fuel as [|fuel IH]; intros r n data password; simpl; [reflexivity|].
  destruct (pem_Decode data) as [[block remainder]|]; [|reflexivity].
  destruct (loadBlock r block password) as [r' [err|]]; [reflexivity|].
  rewrite plus_n_Sm. apply IH.
Qed.

End MoreLoadFacts.

(** What [LoadPEM] does is the same for every register: its count and its
    error are those of a load into an empty register, and the register it
    leaves is the one it was given followed, set by set, by what that load
    would leave.  Credentials already present are kept in front, also when
    they equal new ones (nothing is deduplicated). *)
Theorem LoadPEM_into_any_register {lib : GoLib} (r : KeyRegister) (data password : bytes) :
  exists r0 n err,
    LoadPEM emptyRegister data password = Some (r0, n, err) /\
    LoadPEM r data password = Some (join r r0, n, err) /\
    LoadPEM (join r r0) data password = Some (join (join r r0) r0, n, err).
Proof.
  destruct (decodes_all data) as (blocks & rest & Hdec & Hrest).
  destruct (loadBlocks emptyRegister 0 blocks password) as [[r0 n0] e0] eqn:H0.
  exists r0, n0, e0.
  rewrite !(LoadPEM_blocks _ _ _ _ _ Hdec Hrest).
  split; [now rewrite H0|].
  split; rewrite loadBlocks_join, H0; reflexivity.
Qed.

(** PEM encryption is enforced for a non-empty password: if [LoadPEM] is
    given one and returns no error, every block of the input was encrypted
    and [x509.DecryptPEMBlock] decrypted it with that password. *)
Theorem LoadPEM_password_is_enforced {lib : GoLib}
  r data password blocks rest r' n :
  password <> [] ->
  decodes data blocks rest -> pem_Decode rest = None ->
  LoadPEM r data password = Some (r', n, None) ->
  Forall (fun block =>
            x509_IsEncryptedPEMBlock block = true /\
            exists der, x509_DecryptPEMBlock block password = inr der) blocks.
Proof.
  intros Hpw Hdec Hrest. rewrite (LoadPEM_blocks _ _ _ _ _ Hdec Hrest).
  intros [= H]. clear Hdec Hrest. revert r H.
  generalize 0 as k.
  induction blocks as [|b blocks IH]; intros k r; simpl; [constructor|].
  destruct (loadBlock r b password) as [r1 [err|]] eqn:Hb; [discriminate|].
  intros H. constructor; [|eapply IH; eauto].
  apply loadBlock_opened in Hb as [opened Hopen].
  apply (openBlock_with_password _ _ _ Hpw) in Hopen as [Hsealed Hder]. eauto.
Qed.

(** Two encrypted blocks load with their password. *)
Lemma LoadPEM_password_is_enforced_witness :
  Forall (fun block =>
            x509_IsEncryptedPEMBlock (GoLib := Stub.lib) block = true /\
            exists der, x509_DecryptPEMBlock (GoLib := Stub.lib) block Stub.password
                        = inr der)
    [Stub.sealed "EC PRIVATE KEY" Byte.x07; Stub.sealed "EC PRIVATE KEY" Byte.x07].
Proof.
  apply (LoadPEM_password_is_enforced (lib := Stub.lib) emptyRegister
           [Byte.x07; Byte.x07] Stub.password _ []
           {| ECDSAs := [Stub.ecA; Stub.ecA]; RSAs := []; Secrets := [] |} 2).
  - discriminate.
  - repeat (econstructor; try reflexivity).
  - reflexivity.
  - reflexivity.
Defined.

(** [LoadPEM] ends with the unknown-type error exactly when the block it has
    reached passes the password step and its type is none of CERTIFICATE,
    PUBLIC KEY, EC PRIVATE KEY and RSA PRIVATE KEY, compared as exact
    strings; the error carries that type, the count is that of the blocks
    loaded before, and the register holds what they added and nothing of
    the failing block. *)
Theorem LoadPEM_unknown_type {lib : GoLib} r data password r' n type :
  LoadPEM r data password = Some (r', n, Some (errUnknownPEMType type)) <->
  exists blocks mid block rest opened,
    decodes data blocks mid /\ pem_Decode mid = Some (block, rest) /\
    loadBlocks r 0 blocks password = (r', n, None) /\
    openBlock block password = inr opened /\
    pem.Type' block = type /\ knownType type = false.
Proof.
  assert (Hbody : forall r1 block r2,
            loadBlock r1 block password = (r2, Some (errUnknownPEMType type)) <->
            (exists opened, openBlock block password = inr opened) /\
            pem.Type' block = type /\ knownType type = false /\ r2 = r1).
  { intros r1 block r2. unfold loadBlock.
    destruct (openBlock block password) as [e|opened] eqn:Hopen.
    - split.
      + intros [= <- He]. exfalso. revert Hopen. rewrite He. unfold openBlock.
        destruct (x509_IsEncryptedPEMBlock block);
          [destruct (x509_DecryptPEMBlock block password)|
           destruct (negb (Nat.eqb (length password) 0))]; discriminate.
      + intros [[o Ho] _]. discriminate.
    - pose proof (openBlock_type _ _ _ Hopen) as Hty.
      unfold switchType, knownType. rewrite Hty.
      destruct (String.eqb (pem.Type' block) "CERTIFICATE") eqn:E1.
      { split.
        - destruct (x509_ParseCertificates (pem.Bytes opened)); [discriminate|].
          intros H. apply addCertificates_error in H as [name H]. discriminate.
        - intros (_ & <- & Hk & _). rewrite E1 in Hk. discriminate. }
      destruct (String.eqb (pem.Type' block) "PUBLIC KEY") eqn:E2.
      { split.
        - destruct (x509_ParsePKIXPublicKey (pem.Bytes opened)); [discriminate|].
          intros H. apply add_error in H as (_ & name & _ & H). discriminate.
        - intros (_ & <- & Hk & _). rewrite E1, E2 in Hk. discriminate. }
      destruct (String.eqb (pem.Type' block) "EC PRIVATE KEY") eqn:E3.
      { split.
        - destruct (x509_ParseECPrivateKey (pem.Bytes opened)); discriminate.
        - intros (_ & <- & Hk & _). rewrite E1, E2, E3 in Hk. discriminate. }
      destruct (String.eqb (pem.Type' block) "RSA PRIVATE KEY") eqn:E4.
      { split.
        - destruct (x509_ParsePKCS1PrivateKey (pem.Bytes opened)); discriminate.
        - intros (_ & <- & Hk & _). rewrite E1, E2, E3, E4 in Hk. discriminate. }
      split.
      + intros [= <- <-]. rewrite E1, E2, E3, E4. eauto.
      + intros (_ & <- & _ & ->). reflexivity. }
  rewrite LoadPEM_failed. split.
  - intros (blocks & mid & bad & rest & r1 & Hdec & Hmid & Hgood & Hbad).
    apply Hbody in Hbad as ([opened Hopen] & Hty & Hk & ->).
    exists blocks, mid, bad, rest, opened. repeat split; assumption.
  - intros (blocks & mid & bad & rest & opened & Hdec & Hmid & Hgood & Hopen & Hty & Hk).
    exists blocks, mid, bad, rest, r'. repeat split; auto.
    apply Hbody. eauto.
Qed.

(** ** Counting *)

Section CountFacts.
Context {lib : GoLib}.

Lemma addCertificates_supported good : forall r later,
  forallb (fun c => supported (x509.PublicKey c)) good = true ->
  addCertificates r (good ++ later) =
  addCertificates (fst (addCertificates r good)) later /\
  credentials (fst (addCertificates r good)) = credentials r + length good.
Proof.
  induction good as [|c good IH]; intros r later; simpl.
  - intros _. split; [reflexivity | lia].
  - intros H. apply andb_true_iff in H as [Hc Hgood].
    destruct (x509.PublicKey c) as [t|t|name]; simpl in *; try discriminate;
      match goal with
      | |- addCertificates ?r' _ = _ /\ _ =>
          destruct (IH r' later Hgood) as [-> ->]
      end;
      (split; [reflexivity|]); unfold credentials; simpl; rewrite length_app;
      simpl; lia.
Qed.

Lemma loadBlocks_without_certificates blocks password : forall r k r' n err,
  Forall (fun b => pem.Type' b <> "CERTIFICATE") blocks ->
  loadBlocks r k blocks password = (r', n, err) ->
  credentials r' + k = credentials r + n.
Proof.
  induction blocks as [|b blocks IH]; intros r k r' n err Hty; simpl.
  - intros [= <- <- _]. lia.
  - inversion Hty as [|? ? Hb Hrest]; subst.
    pose proof (loadBlock_one_credential r b password Hb) as Hone.
    destruct (loadBlock r b password) as [r1 [e|]]; simpl in Hone.
    + intros [= <- <- _]. lia.
    + intros H. apply (IH _ _ _ _ _ Hrest) in H. lia.
Qed.

End CountFacts.

(** A CERTIFICATE block whose certificates start with supported keys and go
    on with an unsupported one ends the call with the unsupported-key error;
    the keys of the certificates before it stay in the register, although
    the count, that of the blocks loaded earlier, does not include them, and
    the certificates after it are not looked at. *)
Theorem LoadPEM_certificate_block_keeps_earlier_keys {lib : GoLib}
  r data password blocks mid block rest r1 n1 opened good bad later name :
  decodes data blocks mid -> pem_Decode mid = Some (block, rest) ->
  loadBlocks r 0 blocks password = (r1, n1, None) ->
  openBlock block password = inr opened ->
  pem.Type' block = "CERTIFICATE" ->
  x509_ParseCertificates (pem.Bytes opened) = inr (good ++ bad :: later) ->
  forallb (fun c => supported (x509.PublicKey c)) good = true ->
  x509.PublicKey bad = KeyOther name ->
  exists r2,
    LoadPEM r data password = Some (r2, length blocks, Some (errUnsupportedKeyType name))
    /\ credentials r2 = credentials r1 + length good
    /\ extends r1 r2.
Proof.
  intros Hdec Hmid Hgood Hopen Hty Hcerts Hsup Hbad.
  pose proof (loadBlocks_count _ _ _ _ _ _ Hgood) as Hn. simpl in Hn. subst n1.
  destruct (addCertificates_supported good r1 (bad :: later) Hsup) as [Happ Hcred].
  exists (fst (addCertificates r1 good)).
  assert (Hblock : loadBlock r1 block password =
                   (fst (addCertificates r1 good), Some (errUnsupportedKeyType name))).
  { unfold loadBlock. rewrite Hopen. unfold switchType.
    rewrite (openBlock_type _ _ _ Hopen), Hty. simpl. rewrite Hcerts, Happ.
    simpl. rewrite Hbad. reflexivity. }
  split; [eapply LoadPEM_fails_at; eauto|]. split; [exact Hcred|].
  apply addCertificates_extends.
Qed.

(** A certificate with an RSA key followed by one with a DSA key: the RSA key
    is registered, the count is 0. *)
Lemma LoadPEM_certificate_block_keeps_earlier_keys_witness :
  exists r2,
    LoadPEM (lib := Stub.lib) emptyRegister [Byte.x08; Byte.x03] [] =
    Some (r2, length (@nil pem.Block), Some (errUnsupportedKeyType "*dsa.PublicKey"))
    /\ credentials r2 = credentials emptyRegister + length [Stub.cert (KeyRSA Stub.rsaA)]
    /\ extends emptyRegister r2.
Proof.
  apply (LoadPEM_certificate_block_keeps_earlier_keys (lib := Stub.lib)
           emptyRegister [Byte.x08; Byte.x03] [] [] [Byte.x08; Byte.x03]
           (Stub.plain "CERTIFICATE" Byte.x08) [Byte.x03] emptyRegister 0
           (Stub.plain "CERTIFICATE" Byte.x08) [Stub.cert (KeyRSA Stub.rsaA)]
           (Stub.cert (KeyOther "*dsa.PublicKey")) []);
    try reflexivity.
  constructor.
Defined.

(** On an input without CERTIFICATE blocks the count [LoadPEM] returns is the
    number of credentials it has added, whether it ends with an error or
    not: every other block adds one credential when it loads and none when
    it fails. *)
Theorem LoadPEM_count_without_certificates {lib : GoLib}
  r data password blocks rest r' n err :
  decodes data blocks rest -> pem_Decode rest = None ->
  Forall (fun b => pem.Type' b <> "CERTIFICATE") blocks ->
  LoadPEM r data password = Some (r', n, err) ->
  credentials r' = credentials r + n.
Proof.
  intros Hdec Hrest Hty. rewrite (LoadPEM_blocks _ _ _ _ _ Hdec Hrest).
  intros [= H]. apply (loadBlocks_without_certificates _ _ _ _ _ _ _ Hty) in H. lia.
Qed.

(** A public key and two private keys, then a block of unknown type: count 3,
    three credentials. *)
Lemma LoadPEM_count_without_certificates_witness :
  credentials {| ECDSAs := [Stub.ecA; Stub.ecA]; RSAs := [Stub.rsaB]; Secrets := [] |} =
  credentials emptyRegister + 3.
Proof.
  apply (LoadPEM_count_without_certificates (lib := Stub.lib) emptyRegister
           [Byte.x03; Byte.x04; Byte.x05; Byte.x06] []
           [Stub.plain "PUBLIC KEY" Byte.x03; Stub.plain "EC PRIVATE KEY" Byte.x04;
            Stub.plain "RSA PRIVATE KEY" Byte.x05; Stub.plain "DSA PRIVATE KEY" Byte.x06]
           [] _ 3 (Some (errUnknownPEMType "DSA PRIVATE KEY"))).
  - repeat (econstructor; try reflexivity).
  - reflexivity.
  - repeat constructor; discriminate.
  - reflexivity.
Defined.

(** Loading an input is loading its leading blocks and then, into the
    register that leaves, the bytes after them: if [data] starts with the
    blocks that make up [head], and [head] loads without error, then
    [LoadPEM] on [data] gives the register and the error of [LoadPEM] on
    the remaining bytes, and the two counts added up. *)
Theorem LoadPEM_in_two_calls {lib : GoLib}
  r data head password blocks mid rest r1 n1 :
  decodes data blocks mid ->
  decodes head blocks rest -> pem_Decode rest = None ->
  LoadPEM r head password = Some (r1, n1, None) ->
  LoadPEM r data password = option_map (shiftCount n1) (LoadPEM r1 mid password).
Proof.
  intros Hdec Hhead Hrest. rewrite (LoadPEM_blocks _ _ _ _ _ Hhead Hrest).
  intros [= Hgood]. unfold LoadPEM.
  rewrite (loadLoop_decodes _ _ _ Hdec) by lia. rewrite Hgood.
  rewrite <- loadLoop_shift. now rewrite Nat.add_0_r.
Qed.

(** A public key loaded first, then two private keys: the same as the three
    blocks in one call. *)
Lemma LoadPEM_in_two_calls_witness :
  LoadPEM (lib := Stub.lib) emptyRegister [Byte.x03; Byte.x04; Byte.x05] [] =
  option_map (shiftCount 1)
    (LoadPEM (lib := Stub.lib) {| ECDSAs := [Stub.ecA]; RSAs := []; Secrets := [] |}
       [Byte.x04; Byte.x05] []).
Proof.
  apply (LoadPEM_in_two_calls (lib := Stub.lib) emptyRegister
           [Byte.x03; Byte.x04; Byte.x05] [Byte.x03; Byte.xff] []
           [Stub.plain "PUBLIC KEY" Byte.x03] [Byte.x04; Byte.x05] [Byte.xff]).
  - repeat (econstructor; try reflexivity).
  - repeat (econstructor; try reflexivity).
  - reflexivity.
  - reflexivity.
Defined.

(** ** What Check returns *)

Section OutcomeFacts.
Context {lib : GoLib} {pkg : Package}.

Lemma closure_for family : verifierFor family (closure family).
Proof.
  destruct family; [apply verifyHMAC_for | apply verifyRSA_for | apply verifyECDSA_for].
Qed.

Lemma closure_result family content sig hash w :
  fst (closure family content sig hash w) =
  if accepts family (register w) content sig hash then None else Some ErrSigMiss.
Proof.
  destruct family; simpl; unfold verifyHMAC, verifyRSA, verifyECDSA, bind, reg;
    now rewrite rangeKeys_run.
Qed.

(** The result of the tail of [Check] in the branch of [family]. *)
Lemma checkWith_result family token buf h hash w :
  fst (checkWith token buf h hash (closure family) w) =
  match decodeSignature token buf with
  | inl err => inl err
  | inr (content, sig) =>
      if accepts family (register w) content sig hash then
        match parseClaims token buf with
        | inl err => inl err
        | inr claims => inr {| Raw := Raw claims; KeyID := Kid h |}
        end
      else inl ErrSigMiss
  end.
Proof.
  unfold checkWith, verifyAndParseClaims, bind, ret.
  destruct (decodeSignature token buf) as [err|[content sig]]; [reflexivity|].
  pose proof (closure_result family content sig hash w) as Hres.
  destruct (closure family content sig hash w) as [res w1]. simpl in Hres. subst res.
  destruct (accepts family (register w) content sig hash); [|reflexivity].
  destruct (parseClaims token buf); reflexivity.
Qed.

(** [Check] in the branch the header selects: the tail of [Check] with the
    closure of that family, run after the lookups. *)
Lemma Check_selected token h buf family hash w :
  parseHeader token = inr (h, buf) -> selects h family hash ->
  exists lookups,
    Check token w =
    checkWith token buf h hash (closure family)
      {| register := register w; calls := calls w ++ lookups |}.
Proof.
  intros Hh Hsel. unfold Check. rewrite Hh.
  unfold matchFamily, bind, called, ret. cbn [algsOf].
  destruct family; simpl in Hsel.
  - rewrite Hsel. eexists. reflexivity.
  - destruct Hsel as [H1 H2]. rewrite H1. simpl. rewrite H2.
    exists [call_match HMAC; call_match RSA]. simpl. now rewrite <- app_assoc.
  - destruct Hsel as (H1 & H2 & H3). rewrite H1. simpl. rewrite H2. simpl. rewrite H3.
    exists [call_match HMAC; call_match RSA; call_match ECDSA]. simpl.
    now rewrite <- !app_assoc.
Qed.

(** Without a selected branch [Check] returns an error. *)
Lemma Check_not_selected token h buf w claims :
  parseHeader token = inr (h, buf) ->
  fst (Check token w) = inr claims ->
  exists family hash, selects h family hash.
Proof.
  intros Hh. unfold Check. rewrite Hh.
  unfold matchFamily, bind, called, ret. cbn [algsOf].
  destruct (header_match h HMACAlgs) as [e1|hash1] eqn:H1;
    [|intros _; exists HMAC, hash1; exact H1].
  destruct (error_eq_dec e1 ErrAlgUnk) as [->|]; [|discriminate].
  destruct (header_match h RSAAlgs) as [e2|hash2] eqn:H2;
    [|intros _; exists RSA, hash2; simpl; auto].
  destruct (error_eq_dec e2 ErrAlgUnk) as [->|]; [|discriminate].
  destruct (header_match h ECDSAAlgs) as [e3|hash3] eqn:H3;
    [discriminate | intros _; exists ECDSA, hash3; simpl; auto].
Qed.

End OutcomeFacts.

Section SameCandidates.
Context {lib : GoLib} {pkg : Package}.

Lemma closure_same family content sig hash w1 w2 :
  sameCandidates family (register w1) (register w2) -> calls w1 = calls w2 ->
  fst (closure family content sig hash w1) = fst (closure family content sig hash w2) /\
  calls (snd (closure family content sig hash w1)) =
  calls (snd (closure family content sig hash w2)).
Proof.
  intros Hsame Hcalls.
  destruct family; simpl in *; unfold verifyHMAC, verifyRSA, verifyECDSA, bind, reg;
    rewrite !rangeKeys_run; simpl; rewrite Hsame, Hcalls; auto.
Qed.

Lemma checkWith_same family token buf h hash w1 w2 :
  sameCandidates family (register w1) (register w2) -> calls w1 = calls w2 ->
  fst (checkWith token buf h hash (closure family) w1) =
  fst (checkWith token buf h hash (closure family) w2) /\
  calls (snd (checkWith token buf h hash (closure family) w1)) =
  calls (snd (checkWith token buf h hash (closure family) w2)).
Proof.
  intros Hsame Hcalls. unfold checkWith, verifyAndParseClaims, bind, ret.
  destruct (decodeSignature token buf) as [err|[content sig]]; [auto|].
  destruct (closure_same family content sig hash w1 w2 Hsame Hcalls) as [Hfst Hsnd].
  destruct (closure family content sig hash w1) as [res1 v1],
           (closure family content sig hash w2) as [res2 v2].
  simpl in Hfst, Hsnd. subst res2.
  destruct res1; simpl; [auto|]. destruct (parseClaims token buf); simpl; auto.
Qed.

End SameCandidates.

(** [Check] returns the claims set if, and only if, the signature checks
    out: it returns claims exactly when the header parses, one family is
    selected by the tables, the signature decodes, some candidate of that
    family in the register passes the family's primitive on the signed
    content, and the payload parses; the claims are the parsed ones with
    [KeyID] set to the header's [Kid].  (The decoding of signature and
    payload is that of [verifyAndParseClaims] as modelled above.) *)
Theorem Check_returns_claims_iff {lib : GoLib} {pkg : Package}
  (token : bytes) (w : World) (claims : Claims) :
  fst (Check token w) = inr claims <->
  exists h buf family hash content sig parsed,
    parseHeader token = inr (h, buf) /\ selects h family hash /\
    decodeSignature token buf = inr (content, sig) /\
    accepts family (register w) content sig hash = true /\
    parseClaims token buf = inr parsed /\
    claims = {| Raw := Raw parsed; KeyID := Kid h |}.
Proof.
  split.
  - intros Hres. destruct (parseHeader token) as [err|[h buf]] eqn:Hh.
    + unfold Check in Hres. rewrite Hh in Hres. discriminate.
    + destruct (Check_not_selected _ _ _ _ _ Hh Hres) as (family & hash & Hsel).
      destruct (Check_selected token h buf family hash w Hh Hsel) as [lookups Hrun].
      rewrite Hrun, checkWith_result in Hres. simpl in Hres.
      destruct (decodeSignature token buf) as [e|[content sig]] eqn:Hsig; [discriminate|].
      destruct (accepts family (register w) content sig hash) eqn:Hacc; [|discriminate].
      destruct (parseClaims token buf) as [e|parsed] eqn:Hparse; [discriminate|].
      injection Hres as <-.
      exists h, buf, family, hash, content, sig, parsed. repeat split; assumption.
  - intros (h & buf & family & hash & content & sig & parsed &
            Hh & Hsel & Hsig & Hacc & Hparse & ->).
    destruct (Check_selected token h buf family hash w Hh Hsel) as [lookups Hrun].
    rewrite Hrun, checkWith_result. simpl. now rewrite Hsig, Hacc, Hparse.
Qed.

(** A token of the HMAC family signed with the second of two registered
    secrets is accepted, with the header's key identifier. *)
Lemma Check_returns_claims_iff_witness :
  fst (Check (lib := Stub.lib) (pkg := Stub.pkg) [Byte.x48; Byte.x05; Byte.x48]
         (start {| ECDSAs := []; RSAs := []; Secrets := [[Byte.x01]; [Byte.x05]] |})) =
  inr {| Raw := [Byte.x48; Byte.x05; Byte.x48]; KeyID := "kid" |}.
Proof.
  apply (proj2 (Check_returns_claims_iff (lib := Stub.lib) (pkg := Stub.pkg) _ _ _)).
  exists {| Alg := "HS256"; Kid := "kid" |}, [], HMAC, 5%N, [Byte.x48],
    [Byte.x05; Byte.x48], {| Raw := [Byte.x48; Byte.x05; Byte.x48]; KeyID := "" |}.
  repeat split; reflexivity.
Defined.

(** Only the candidates of the selected family count.  Two registers that
    hold the same candidates for the family the header selects give the same
    result and the same calls, whatever they hold for the other two
    families: an RSA or ECDSA key is never tried on an HMAC token, nor a
    secret on an RSA or ECDSA token. *)
Theorem Check_ignores_other_families {lib : GoLib} {pkg : Package}
  token h buf family hash r1 r2 :
  parseHeader token = inr (h, buf) -> selects h family hash ->
  sameCandidates family r1 r2 ->
  fst (Check token (start r1)) = fst (Check token (start r2)) /\
  calls (snd (Check token (start r1))) = calls (snd (Check token (start r2))).
Proof.
  intros Hh Hsel Hsame. unfold Check. rewrite Hh.
  unfold matchFamily, bind, called, ret. cbn [algsOf].
  destruct family; simpl in Hsel.
  - rewrite Hsel. apply (checkWith_same HMAC); [exact Hsame | reflexivity].
  - destruct Hsel as [E1 E2]. rewrite E1. simpl. rewrite E2.
    apply (checkWith_same RSA); [exact Hsame | reflexivity].
  - destruct Hsel as (E1 & E2 & E3). rewrite E1. simpl. rewrite E2. simpl. rewrite E3.
    apply (checkWith_same ECDSA); [exact Hsame | reflexivity].
Qed.

(** An HMAC token gets the same answer with and without RSA and ECDSA keys
    in the register. *)
Lemma Check_ignores_other_families_witness :
  fst (Check (lib := Stub.lib) (pkg := Stub.pkg) [Byte.x48; Byte.x05; Byte.x48]
         (start {| ECDSAs := [Stub.ecA]; RSAs := [Stub.rsaA]; Secrets := [[Byte.x05]] |})) =
  fst (Check (lib := Stub.lib) (pkg := Stub.pkg) [Byte.x48; Byte.x05; Byte.x48]
         (start {| ECDSAs := []; RSAs := []; Secrets := [[Byte.x05]] |})).
Proof.
  apply (Check_ignores_other_families (lib := Stub.lib) (pkg := Stub.pkg)
           [Byte.x48; Byte.x05; Byte.x48] {| Alg := "HS256"; Kid := "kid" |} []
           HMAC 5%N); reflexivity.
Defined.

(** ** The signature of the ECDSA closure *)

Lemma SetBytes_zeros k a : SetBytes (repeat Byte.x00 k ++ a) = SetBytes a.
Proof.
  unfold SetBytes. rewrite fold_left_app. f_equal.
  induction k as [|k IH]; simpl; [reflexivity | exact IH].
Qed.

Lemma halves_of_app (x y : bytes) :
  length x = length y ->
  firstn (length (x ++ y) / 2) (x ++ y) = x /\
  skipn (length (x ++ y) / 2) (x ++ y) = y.
Proof.
  intros Hlen.
  assert (Hhalf : length (x ++ y) / 2 = length x).
  { rewrite length_app, <- Hlen.
    replace (length x + length x) with (length x * 2) by lia.
    apply Nat.div_mul. lia. }
  rewrite Hhalf. split.
  - rewrite firstn_app, firstn_all, Nat.sub_diag. simpl. apply app_nil_r.
  - rewrite skipn_app, skipn_all, Nat.sub_diag. reflexivity.
Qed.

(** For a signature made of two parts of equal length the ECDSA closure
    reads the first part as r and the second as s, big-endian.  It does not
    look at the length itself: the same two parts with the same number of
    zero bytes put in front of each give the same r and s, so the same
    calls and the same result. *)
Theorem verifyECDSA_zero_padding {lib : GoLib}
  (content x y : bytes) (k : nat) (hash : Hash) (w : World) :
  length x = length y ->
  verifyECDSA content (x ++ y) hash w =
  rangeKeys (fun key => ecdsa_Verify key (hash_Sum hash content) (SetBytes x) (SetBytes y))
    (fun key => call_ecdsa_Verify key (hash_Sum hash content) (SetBytes x) (SetBytes y))
    (ECDSAs (register w)) w
  /\ verifyECDSA content ((repeat Byte.x00 k ++ x) ++ (repeat Byte.x00 k ++ y)) hash w =
     verifyECDSA content (x ++ y) hash w.
Proof.
  intros Hlen.
  assert (Hpad : length (repeat Byte.x00 k ++ x) = length (repeat Byte.x00 k ++ y)).
  { rewrite !length_app. lia. }
  destruct (halves_of_app x y Hlen) as [Hx Hy].
  destruct (halves_of_app _ _ Hpad) as [Hpx Hpy].
  unfold verifyECDSA, bind, reg.
  rewrite Hx, Hy, Hpx, Hpy, !SetBytes_zeros. split; reflexivity.
Qed.

(** The signature 05 01 and the signature 00 05 00 01 are the same to the
    closure. *)
Lemma verifyECDSA_zero_padding_witness :
  verifyECDSA (lib := Stub.lib) [Byte.x45]
    ((repeat Byte.x00 1 ++ [Byte.x05]) ++ (repeat Byte.x00 1 ++ [Byte.x01])) 5%N
    (start {| ECDSAs := [Stub.ecA]; RSAs := []; Secrets := [] |}) =
  verifyECDSA (lib := Stub.lib) [Byte.x45] ([Byte.x05] ++ [Byte.x01]) 5%N
    (start {| ECDSAs := [Stub.ecA]; RSAs := []; Secrets := [] |}).
Proof.
  apply (verifyECDSA_zero_padding (lib := Stub.lib) [Byte.x45] [Byte.x05] [Byte.x01]
           1 5%N (start {| ECDSAs := [Stub.ecA]; RSAs := []; Secrets := [] |})).
  reflexivity.
Defined.

(** A register without credentials accepts nothing: on the empty register
    [Check] returns an error for every token, whatever the header says and
    whatever the primitives would answer. *)
Theorem Check_empty_register_rejects {lib : GoLib} {pkg : Package} (token : bytes) :
  exists err, fst (Check token (start emptyRegister)) = inl err.
Proof.
  destruct (fst (Check token (start emptyRegister))) as [err|claims] eqn:Hres;
    [eauto|].
  destruct (parseHeader token) as [e|[h buf]] eqn:Hh.
  - unfold Check in Hres. rewrite Hh in Hres. discriminate.
  - destruct (Check_not_selected _ _ _ _ _ Hh Hres) as (family & hash & Hsel).
    destruct (Check_selected token h buf family hash (start emptyRegister) Hh Hsel)
      as [lookups Hrun].
    rewrite Hrun, checkWith_result in Hres. simpl in Hres.
    destruct (decodeSignature token buf) as [e|[content sig]]; [discriminate|].
    destruct family; discriminate.
Qed.
